(** * SimpleVector: a growable array over an exclusively owned raw block

    Shallow embedding of [simple-vector/simple_vector.h].

    - [size_t] values are [N], every arithmetic result reduced modulo 2^64.
    - A storage block is a [list] of cells; a cell is either [Holds x] or
      [Unspecified] (allocated, never written).  An access outside the
      block is undefined behaviour.
    - A member function is a computation over the object it is called on
      ([this]) and a count of the blocks obtained from the allocator; it
      returns, throws an exception, or has undefined behaviour. *)

From stdpp Require Import base decidable option numbers list.

#[local] Open Scope N_scope.

(** ** [size_t] arithmetic *)

Definition size_t_modulus : N := 2 ^ 64.

Definition wrap (x : N) : N := x mod size_t_modulus.

(** ** Cells and the element type *)

Inductive cell (T : Type) : Type :=
  | Unspecified
  | Holds (x : T).
Arguments Unspecified {T}.
Arguments Holds {T} x.

(** What the template parameter [Type] has to provide: the value of
    [Type{}], and the state in which move assignment leaves its
    right-hand side. *)
Class Element (T : Type) : Type := {
  Type_default : T;
  moved_from : cell T -> cell T
}.

(** ** Element-wise loops over storage blocks

    Positions are offsets into a block; [None] is an access outside the
    block.  [leave] is what a source cell becomes once it has been read:
    the identity for a copy, [moved_from] for a move. *)

Section Loops.
Context {T : Type}.
Implicit Types (src dst buf : list (cell T)) (c : cell T).
Variable leave : cell T -> cell T.

(** [block[i] = c] *)
Definition store buf (i : nat) c : option (list (cell T)) :=
  if decide (i < length buf)%nat then Some (<[i:=c]> buf) else None.

(** [n] steps of [*d_first++ = *first++], source and destination in
    two distinct blocks.  Returns both blocks. *)
Fixpoint forward_loop src (first n : nat) dst (d_first : nat)
  : option (list (cell T) * list (cell T)) :=
  match n with
  | O => Some (src, dst)
  | S n' =>
      c ← src !! first;
      dst' ← store dst d_first c;
      forward_loop (<[first:=leave c]> src) (S first) n' dst' (S d_first)
  end.

(** [n] steps of [*--d_last = *--last], source and destination in two
    distinct blocks; [last = first + n]. *)
Fixpoint backward_loop src (first n : nat) dst (d_last : nat)
  : option (list (cell T) * list (cell T)) :=
  match n with
  | O => Some (src, dst)
  | S n' =>
      c ← src !! (first + n')%nat;
      match d_last with
      | O => None
      | S d' =>
          dst' ← store dst d' c;
          backward_loop (<[(first + n')%nat:=leave c]> src) first n' dst' d'
      end
  end.

(** The same two loops with source and destination in one block: every
    step reads the block as the earlier steps left it. *)
Fixpoint forward_loop_within buf (first n d_first : nat)
  : option (list (cell T)) :=
  match n with
  | O => Some buf
  | S n' =>
      c ← buf !! first;
      buf' ← store (<[first:=leave c]> buf) d_first c;
      forward_loop_within buf' (S first) n' (S d_first)
  end.

Fixpoint backward_loop_within buf (first n d_last : nat)
  : option (list (cell T)) :=
  match n with
  | O => Some buf
  | S n' =>
      c ← buf !! (first + n')%nat;
      match d_last with
      | O => None
      | S d' =>
          buf' ← store (<[(first + n')%nat:=leave c]> buf) d' c;
          backward_loop_within buf' first n' d'
      end
  end.
End Loops.

(** [n] steps of [*first++ = c] *)
Fixpoint fill_loop {T} (buf : list (cell T)) (first n : nat) (c : cell T)
  : option (list (cell T)) :=
  match n with
  | O => Some buf
  | S n' => buf' ← store buf first c; fill_loop buf' (S first) n' c
  end.

(** An iterator pair [first, last) that a loop walks with [!=]: with
    [last] before [first] the loop runs off the block. *)
Definition distance (first last : N) : option nat :=
  if decide (first <= last) then Some (N.to_nat (last - first)) else None.

Section Algorithms.
Context `{Element T}.
Implicit Types (src dst buf : list (cell T)) (c : cell T).

(** [std::copy(&src[first], &src[last], &dst[d_first])] *)
Definition std_copy src (first last : N) dst (d_first : N)
  : option (list (cell T)) :=
  n ← distance first last;
  snd <$> forward_loop id src (N.to_nat first) n dst (N.to_nat d_first).

(** [std::move(&src[first], &src[last], &dst[d_first])]: the moved-from
    source block and the destination block. *)
Definition std_move src (first last : N) dst (d_first : N)
  : option (list (cell T) * list (cell T)) :=
  n ← distance first last;
  forward_loop moved_from src (N.to_nat first) n dst (N.to_nat d_first).

(** [std::copy_backward(&src[first], &src[last], &dst[d_last])] *)
Definition std_copy_backward src (first last : N) dst (d_last : N)
  : option (list (cell T)) :=
  n ← distance first last;
  snd <$> backward_loop id src (N.to_nat first) n dst (N.to_nat d_last).

(** [std::move_backward(&src[first], &src[last], &dst[d_last])] *)
Definition std_move_backward src (first last : N) dst (d_last : N)
  : option (list (cell T) * list (cell T)) :=
  n ← distance first last;
  backward_loop moved_from src (N.to_nat first) n dst (N.to_nat d_last).

(** [std::move(&buf[first], &buf[last], &buf[d_first])] *)
Definition std_move_within buf (first last d_first : N)
  : option (list (cell T)) :=
  n ← distance first last;
  forward_loop_within moved_from buf (N.to_nat first) n (N.to_nat d_first).

(** [std::copy_backward(&buf[first], &buf[last], &buf[d_last])] *)
Definition std_copy_backward_within buf (first last d_last : N)
  : option (list (cell T)) :=
  n ← distance first last;
  backward_loop_within id buf (N.to_nat first) n (N.to_nat d_last).

(** [std::move_backward(&buf[first], &buf[last], &buf[d_last])] *)
Definition std_move_backward_within buf (first last d_last : N)
  : option (list (cell T)) :=
  n ← distance first last;
  backward_loop_within moved_from buf (N.to_nat first) n (N.to_nat d_last).

(** [for (it = &buf[first]; it != &buf[last]; ++it) *it = c], which is
    also [std::fill] and [std::generate] with a constant generator. *)
Definition std_fill buf (first last : N) c : option (list (cell T)) :=
  n ← distance first last;
  fill_loop buf (N.to_nat first) n c.
End Algorithms.

(** ** The class *)

Inductive exception : Type :=
  | out_of_range.

(** [class ReserveProxyObj] and the free function [Reserve]. *)
Record ReserveProxyObj : Type := { ReserveCapasity : N }.

Definition Reserve (capacity_to_reserve : N) : ReserveProxyObj :=
  {| ReserveCapasity := capacity_to_reserve |}.

Module SimpleVector.

Section Class.
Context `{Element T}.

(** The data members, in declaration order. *)
Record t : Type := {
  items_ : list (cell T);
  size_ : N;
  capacity_ : N
}.

(** The members of an object before a constructor body has run:
    [items_] default-constructed, [size_ = 0], [capacity_ = 0]. *)
Definition blank : t := {| items_ := []; size_ := 0; capacity_ := 0 |}.

Record State : Type := {
  this : t;
  (** blocks obtained from the allocator so far *)
  allocations : N
}.

Inductive outcome (A : Type) : Type :=
  | Returns (a : A) (s : State)
  | Throws (e : exception) (s : State)
  | Undefined.
#[global] Arguments Returns {A} a s.
#[global] Arguments Throws {A} e s.
#[global] Arguments Undefined {A}.

Definition M (A : Type) : Type := State -> outcome A.

#[export] Instance M_ret : MRet M := fun A a s => Returns a s.

#[export] Instance M_bind : MBind M := fun A B k m s =>
  match m s with
  | Returns a s' => k a s'
  | Throws e s' => Throws e s'
  | Undefined => Undefined
  end.

Definition get : M t := fun s => Returns (this s) s.

Definition put (v : t) : M unit :=
  fun s => Returns () {| this := v; allocations := allocations s |}.

Definition throw {A} (e : exception) : M A := fun s => Throws e s.

(** A memory access; outside the block it is undefined behaviour. *)
Definition access {A} (o : option A) : M A :=
  fun s => match o with Some a => Returns a s | None => Undefined end.

(** [assert(P)]; a violated precondition is undefined behaviour. *)
Definition assert (P : Prop) `{!Decision P} : M unit :=
  fun s => if decide P then Returns () s else Undefined.

Definition set_items_ (items : list (cell T)) : M unit :=
  v ← get;
  put {| items_ := items; size_ := size_ v; capacity_ := capacity_ v |}.

Definition set_size_ (size : N) : M unit :=
  v ← get;
  put {| items_ := items_ v; size_ := size; capacity_ := capacity_ v |}.

Definition set_capacity_ (capacity : N) : M unit :=
  v ← get;
  put {| items_ := items_ v; size_ := size_ v; capacity_ := capacity |}.

(** *** The raw block owner [ArrayPtr] *)

(** Modelled from the spec: [array_ptr.h] is not among the sources.
    [ArrayPtr<Type>(n)] allocates storage for exactly [n] elements,
    whose state is unspecified; a zero-size buffer holds no
    allocation. *)
Definition ArrayPtr_new (n : N) : M (list (cell T)) :=
  fun s =>
    Returns (replicate (N.to_nat n) Unspecified)
      {| this := this s;
         allocations :=
           if decide (n = 0) then allocations s else allocations s + 1 |}.

(** Modelled from the spec: [array_ptr.h] is not among the sources.
    [a.swap(b)] exchanges the allocated blocks of two buffers, no
    element is copied. *)
Definition ArrayPtr_swap (a b : list (cell T))
  : list (cell T) * list (cell T) := (b, a).

(** Modelled from the spec: [array_ptr.h] is not among the sources.
    [a = std::move(b)] transfers the ownership of [b]'s block to [a];
    [b] is left with no buffer. *)
Definition ArrayPtr_move_assign (a b : list (cell T))
  : list (cell T) * list (cell T) := (b, []).

(** *** Constructors

    A constructor is run by [construct] on a [blank] object; the
    object [this] of the caller is not touched. *)

Definition construct (ctor : M unit) : M t :=
  fun s =>
    match ctor {| this := blank; allocations := allocations s |} with
    | Returns _ s' =>
        Returns (this s') {| this := this s; allocations := allocations s' |}
    | Throws e s' =>
        Throws e {| this := this s; allocations := allocations s' |}
    | Undefined => Undefined
    end.

(** [SimpleVector() noexcept = default] *)
Definition ctor_default : M unit := mret ().

(** [explicit SimpleVector(size_t size)] *)
Definition ctor_size (size : N) : M unit :=
  items ← ArrayPtr_new size;
  set_items_ items;;
  set_size_ size;;
  set_capacity_ size;;
  v ← get;
  items ← access (std_fill (items_ v) 0 (size_ v) (Holds Type_default));
  set_items_ items.

(** [SimpleVector(size_t size, const Type& value)] *)
Definition ctor_size_value (size : N) (value : T) : M unit :=
  items ← ArrayPtr_new size;
  set_items_ items;;
  set_size_ size;;
  set_capacity_ size;;
  v ← get;
  items ← access (std_fill (items_ v) 0 (size_ v) (Holds value));
  set_items_ items.

(** [SimpleVector(std::initializer_list<Type> init)] *)
Definition ctor_init_list (init : list T) : M unit :=
  let init_size := N.of_nat (length init) in
  items ← ArrayPtr_new init_size;
  set_items_ items;;
  set_size_ init_size;;
  set_capacity_ init_size;;
  v ← get;
  items ← access (std_copy (Holds <$> init) 0 init_size (items_ v) 0);
  set_items_ items.

(** [SimpleVector(const SimpleVector& other)] *)
Definition ctor_copy (other : t) : M unit :=
  items ← ArrayPtr_new (size_ other);
  set_items_ items;;
  set_size_ (size_ other);;
  set_capacity_ (capacity_ other);;
  v ← get;
  items ← access (std_copy (items_ other) 0 (size_ other) (items_ v) 0);
  set_items_ items.

(** [SimpleVector(SimpleVector&& other)]; returns [other] as the
    constructor leaves it. *)
Definition ctor_move (other : t) : M t :=
  v ← get;
  let '(items, other_items) :=
    ArrayPtr_move_assign (items_ v) (items_ other) in
  set_items_ items;;
  set_size_ (size_ other);;
  set_capacity_ (capacity_ other);;
  mret {| items_ := other_items; size_ := 0; capacity_ := 0 |}.

(** *** Observers *)

Definition GetSize : M N := v ← get; mret (size_ v).

Definition GetCapacity : M N := v ← get; mret (capacity_ v).

Definition IsEmpty : M bool := v ← get; mret (bool_decide (size_ v = 0)).

(** [Type& operator[](size_t index) noexcept]: the cell referred to. *)
Definition operator_index (index : N) : M (cell T) :=
  v ← get;
  assert (index < size_ v);;
  access (items_ v !! N.to_nat index).

(** [Type& At(size_t index)]: the cell referred to. *)
Definition At (index : N) : M (cell T) :=
  n ← GetSize;
  if decide (n <= index) then throw out_of_range
  else v ← get; access (items_ v !! N.to_nat index).

(** *** Modifiers *)

Definition Clear : M unit := set_size_ 0.

Definition Resize (new_size : N) : M unit :=
  v ← get;
  if decide (new_size = size_ v) then mret ()
  else
    (if decide (new_size < size_ v) then
       items ← access (std_fill (items_ v) new_size (size_ v)
                         (Holds Type_default));
       set_items_ items
     else mret ());;
    v ← get;
    (if decide (capacity_ v < new_size) then
       let new_capacity := N.max new_size (wrap (2 * capacity_ v)) in
       arr_ptr ← ArrayPtr_new new_capacity;
       '(items, arr_ptr) ← access (std_move (items_ v) 0 (size_ v) arr_ptr 0);
       arr_ptr ← access (std_fill arr_ptr (size_ v) new_size
                           (Holds Type_default));
       let '(items, arr_ptr) := ArrayPtr_swap items arr_ptr in
       set_items_ items;;
       set_capacity_ new_capacity
     else mret ());;
    set_size_ new_size.

(** [void swap(SimpleVector& other) noexcept]; returns [other] as the
    call leaves it. *)
Definition swap (other : t) : M t :=
  v ← get;
  let '(items, other_items) := ArrayPtr_swap (items_ v) (items_ other) in
  put {| items_ := items; size_ := size_ other; capacity_ := capacity_ other |};;
  mret {| items_ := other_items; size_ := size_ v; capacity_ := capacity_ v |}.

(** The argument of [operator=]: a reference to the object assigned to,
    or to another object with the given members. *)
Inductive reference : Type :=
  | Self
  | Other (rhs : t).

(** [SimpleVector& operator=(const SimpleVector& rhs)] *)
Definition operator_assign (rhs : reference) : M unit :=
  match rhs with
  | Self => mret ()
  | Other rhs =>
      tmp ← construct (ctor_copy rhs);
      swap tmp;;
      mret ()
  end.

(** [void PushBack(const Type& item)] *)
Definition PushBack (item : T) : M unit :=
  v ← get;
  (if decide (size_ v < capacity_ v) then
     items ← access (store (items_ v) (N.to_nat (size_ v)) (Holds item));
     set_items_ items
   else
     let new_capacity := N.max 1 (wrap (2 * capacity_ v)) in
     arr_ptr ← ArrayPtr_new new_capacity;
     arr_ptr ← access (std_copy (items_ v) 0 (size_ v) arr_ptr 0);
     arr_ptr ← access (store arr_ptr (N.to_nat (size_ v)) (Holds item));
     let '(items, arr_ptr) := ArrayPtr_swap (items_ v) arr_ptr in
     set_items_ items;;
     set_capacity_ new_capacity);;
  v ← get;
  set_size_ (wrap (size_ v + 1)).

(** [void PushBack(Type&& item)] *)
Definition PushBack_move (item : T) : M unit :=
  v ← get;
  (if decide (size_ v < capacity_ v) then
     items ← access (store (items_ v) (N.to_nat (size_ v)) (Holds item));
     set_items_ items
   else
     let new_capacity := N.max 1 (wrap (2 * capacity_ v)) in
     arr_ptr ← ArrayPtr_new new_capacity;
     '(items, arr_ptr) ← access (std_move (items_ v) 0 (size_ v) arr_ptr 0);
     arr_ptr ← access (store arr_ptr (N.to_nat (size_ v)) (Holds item));
     let '(items, arr_ptr) := ArrayPtr_swap items arr_ptr in
     set_items_ items;;
     set_capacity_ new_capacity);;
  v ← get;
  set_size_ (wrap (size_ v + 1)).

(** [Iterator Insert(ConstIterator pos, const Type& value)]; an iterator
    is the offset from [begin()]. *)
Definition Insert (pos : N) (value : T) : M N :=
  v ← get;
  assert (pos <= size_ v);;
  let pos_element := pos in
  (if decide (size_ v < capacity_ v) then
     items ← access (std_copy_backward_within (items_ v) pos (size_ v)
                       (wrap (size_ v + 1)));
     items ← access (store items (N.to_nat pos_element) (Holds value));
     set_items_ items
   else
     let new_capacity := N.max 1 (wrap (2 * capacity_ v)) in
     arr_ptr ← ArrayPtr_new new_capacity;
     arr_ptr ← access (std_copy (items_ v) 0 pos_element arr_ptr 0);
     arr_ptr ← access (std_copy_backward (items_ v) pos (size_ v) arr_ptr
                         (wrap (size_ v + 1)));
     arr_ptr ← access (store arr_ptr (N.to_nat pos_element) (Holds value));
     let '(items, arr_ptr) := ArrayPtr_swap (items_ v) arr_ptr in
     set_items_ items;;
     set_capacity_ new_capacity);;
  v ← get;
  set_size_ (wrap (size_ v + 1));;
  mret pos_element.

(** [Iterator Insert(ConstIterator pos, Type&& value)] *)
Definition Insert_move (pos : N) (value : T) : M N :=
  v ← get;
  assert (pos <= size_ v);;
  let pos_element := pos in
  (if decide (size_ v < capacity_ v) then
     items ← access (std_move_backward_within (items_ v) pos (size_ v)
                       (wrap (size_ v + 1)));
     items ← access (store items (N.to_nat pos_element) (Holds value));
     set_items_ items
   else
     let new_capacity := N.max 1 (wrap (2 * capacity_ v)) in
     arr_ptr ← ArrayPtr_new new_capacity;
     '(items, arr_ptr) ← access (std_move (items_ v) 0 pos_element arr_ptr 0);
     '(items, arr_ptr) ← access (std_move_backward items pos (size_ v) arr_ptr
                                   (wrap (size_ v + 1)));
     arr_ptr ← access (store arr_ptr (N.to_nat pos_element) (Holds value));
     let '(items, arr_ptr) := ArrayPtr_swap items arr_ptr in
     set_items_ items;;
     set_capacity_ new_capacity);;
  v ← get;
  set_size_ (wrap (size_ v + 1));;
  mret pos_element.

(** [void Reserve(size_t new_capacity)]; the loop
    [tmp_items[i] = items_[i]] for [i] from 0 up to [size_] is the loop
    of [std_copy]. *)
Definition Reserve (new_capacity : N) : M unit :=
  v ← get;
  if decide (new_capacity <= capacity_ v) then mret ()
  else
    tmp_items ← ArrayPtr_new new_capacity;
    tmp_items ← access (std_copy (items_ v) 0 (size_ v) tmp_items 0);
    let '(items, tmp_items) := ArrayPtr_swap (items_ v) tmp_items in
    set_items_ items;;
    set_capacity_ new_capacity.

(** [Iterator Erase(ConstIterator pos)] *)
Definition Erase (pos : N) : M N :=
  v ← get;
  assert (pos < size_ v);;
  let pos_element := pos in
  items ← access (std_move_within (items_ v) (pos + 1) (size_ v) pos_element);
  set_items_ items;;
  v ← get;
  set_size_ (wrap (size_ v + (size_t_modulus - 1)));;
  mret pos_element.

(** [void PopBack() noexcept] *)
Definition PopBack : M unit :=
  empty ← IsEmpty;
  assert (empty = false);;
  v ← get;
  let it_pop := wrap (size_ v + (size_t_modulus - 1)) in
  Erase it_pop;;
  mret ().

(** [SimpleVector(ReserveProxyObj capacity_to_reserve)]: inside the
    class the name [Reserve] is the member function. *)
Definition ctor_reserve (capacity_to_reserve : ReserveProxyObj) : M unit :=
  Reserve (ReserveCapasity capacity_to_reserve).

(** *** Calls

    A call [PushBack(x)] or [Insert(pos, x)] selects the overload by the
    value category of [x]. *)
Inductive argument : Type :=
  | Lvalue (x : T)
  | Rvalue (x : T).

Definition value_of (a : argument) : T :=
  match a with Lvalue x | Rvalue x => x end.

Definition PushBack_call (a : argument) : M unit :=
  match a with
  | Lvalue item => PushBack item
  | Rvalue item => PushBack_move item
  end.

Definition Insert_call (pos : N) (a : argument) : M N :=
  match a with
  | Lvalue value => Insert pos value
  | Rvalue value => Insert_move pos value
  end.

Fixpoint PushBack_calls (args : list argument) : M unit :=
  match args with
  | [] => mret ()
  | a :: args => PushBack_call a;; PushBack_calls args
  end.

(** The calls that may have to grow the block, and the least capacity
    each of them needs. *)
Inductive growing_call : Type :=
  | Call_PushBack (a : argument)
  | Call_Insert (pos : N) (a : argument)
  | Call_Resize (new_size : N).

Definition run_call (c : growing_call) : M unit :=
  match c with
  | Call_PushBack a => PushBack_call a
  | Call_Insert pos a => Insert_call pos a;; mret ()
  | Call_Resize new_size => Resize new_size
  end.

Definition required_minimum (c : growing_call) (v : t) : N :=
  match c with
  | Call_PushBack _ | Call_Insert _ _ => size_ v + 1
  | Call_Resize new_size => new_size
  end.

(** The asserted precondition of the call. *)
Definition precondition (c : growing_call) (v : t) : Prop :=
  match c with
  | Call_Insert pos _ => pos <= size_ v
  | _ => True
  end.

(** *** The data model *)

(** The elements [begin() .. end()). *)
Definition elements (v : t) : list (cell T) :=
  take (N.to_nat (size_ v)) (items_ v).

(** The recorded capacity is the allocated size of the owned block. *)
Definition lockstep (v : t) : Prop :=
  capacity_ v = N.of_nat (length (items_ v)).

(** Every live element lies in the owned block. *)
Definition within_block (v : t) : Prop :=
  (N.to_nat (size_ v) <= length (items_ v))%nat.

Definition valid (v : t) : Prop :=
  size_ v <= capacity_ v /\ lockstep v.

(** Twice the capacity is still a [size_t]. *)
Definition doubling_fits (v : t) : Prop :=
  2 * capacity_ v < size_t_modulus.

(** [Reserve(k)] followed by calls of [PushBack]: [Reserve] returns,
    after every number [j] of calls the capacity is at least [k], and
    up to [quiet] calls no block has been allocated since [Reserve]
    returned. *)
Definition reserve_then_push (s : State) (k : N) (args : list argument)
    (quiet : nat) : Prop :=
  exists s1,
    Reserve k s = Returns () s1 /\
    forall j : nat, exists s2,
      PushBack_calls (take j args) s1 = Returns () s2 /\
      k <= capacity_ (this s2) /\
      ((j <= quiet)%nat -> allocations s2 = allocations s1).

End Class.

Arguments t : clear implicits.
Arguments State : clear implicits.
Arguments M : clear implicits.
Arguments outcome : clear implicits.
Arguments reference : clear implicits.
Arguments argument : clear implicits.
Arguments growing_call : clear implicits.

(** ** The comparison operators *)

(** [operator==] and [operator<] of [Type]. *)
Class Comparable (T : Type) : Type := {
  equal : T -> T -> bool;
  less : T -> T -> bool
}.

Section Comparison.
Context `{Comparable T}.
Implicit Types (l : list (cell T)) (lhs rhs : t T).

(** Reading [*it] as a value: outside the block, and at a cell that was
    never written, the read is undefined behaviour. *)
Definition read l (i : nat) : option T :=
  c ← l !! i;
  match c with
  | Holds x => Some x
  | Unspecified => None
  end.

(** [n] steps of [if (!(a == b)) return false;] on the elements [a], [b]
    that [first1++] and [first2++] point at, then [return true]. *)
Fixpoint equal_loop l1 (first1 n : nat) l2 (first2 : nat) : option bool :=
  match n with
  | O => Some true
  | S n' =>
      x ← read l1 first1;
      y ← read l2 first2;
      if equal x y then equal_loop l1 (S first1) n' l2 (S first2)
      else Some false
  end.

(** [std::equal(&l1[first1], &l1[last1], &l2[first2])] *)
Definition std_equal l1 (first1 last1 : N) l2 (first2 : N) : option bool :=
  n ← distance first1 last1;
  equal_loop l1 (N.to_nat first1) n l2 (N.to_nat first2).

(** While neither range is exhausted, on the elements [a], [b] that
    [first1++] and [first2++] point at:
    [if (a < b) return true; if (b < a) return false;];
    then [return first1 == last1 && first2 != last2]. *)
Fixpoint lexicographical_loop l1 (first1 n1 : nat) l2 (first2 n2 : nat)
  : option bool :=
  match n1 with
  | O => Some (negb (Nat.eqb n2 0))
  | S n1' =>
      match n2 with
      | O => Some false
      | S n2' =>
          x ← read l1 first1;
          y ← read l2 first2;
          if less x y then Some true
          else if less y x then Some false
          else lexicographical_loop l1 (S first1) n1' l2 (S first2) n2'
      end
  end.

(** [std::lexicographical_compare(&l1[first1], &l1[last1],
                                  &l2[first2], &l2[last2])] *)
Definition std_lexicographical_compare l1 (first1 last1 : N)
    l2 (first2 last2 : N) : option bool :=
  n1 ← distance first1 last1;
  n2 ← distance first2 last2;
  lexicographical_loop l1 (N.to_nat first1) n1 l2 (N.to_nat first2) n2.

(** [bool operator==(const SimpleVector&, const SimpleVector&)] *)
Definition operator_eq lhs rhs : option bool :=
  if decide (size_ lhs = size_ rhs)
  then std_equal (items_ lhs) 0 (size_ lhs) (items_ rhs) 0
  else Some false.

(** [operator!=] *)
Definition operator_ne lhs rhs : option bool :=
  negb <$> operator_eq lhs rhs.

(** [operator<] *)
Definition operator_lt lhs rhs : option bool :=
  std_lexicographical_compare (items_ lhs) 0 (size_ lhs)
    (items_ rhs) 0 (size_ rhs).

(** [operator<=] *)
Definition operator_le lhs rhs : option bool :=
  operator_eq lhs rhs ≫= fun e : bool =>
  if e then Some true else operator_lt lhs rhs.

(** [operator>] *)
Definition operator_gt lhs rhs : option bool :=
  operator_lt rhs lhs.

(** [operator>=] *)
Definition operator_ge lhs rhs : option bool :=
  operator_eq lhs rhs ≫= fun e : bool =>
  if e then Some true else operator_lt rhs lhs.

(** The lexicographic order on sequences of values, to compare
    [operator<] with. *)
Fixpoint lexicographic (xs ys : list T) : bool :=
  match xs, ys with
  | [], [] => false
  | [], _ :: _ => true
  | _ :: _, [] => false
  | x :: xs, y :: ys =>
      if less x y then true
      else if less y x then false
      else lexicographic xs ys
  end.

(** The live elements of [v] are the values [xs], in order. *)
Definition holds_values (v : t T) (xs : list T) : Prop :=
  N.to_nat (size_ v) = length xs /\ elements v = Holds <$> xs.

(** [operator==] of [Type] is equality and [operator<] a strict total
    order. *)
Record lawful : Prop := {
  equal_eq : forall x y, equal x y = true <-> x = y;
  less_irreflexive : forall x, less x x = false;
  less_transitive :
    forall x y z, less x y = true -> less y z = true -> less x z = true;
  less_connected :
    forall x y, less x y = false -> less y x = false -> x = y
}.

End Comparison.

Arguments lawful T {_}.

(** ** An element type: [int] *)

#[export] Instance int_Element : Element Z :=
  {| Type_default := 0%Z; moved_from := fun c => c |}.

#[export] Instance int_Comparable : Comparable Z :=
  {| equal := Z.eqb; less := Z.ltb |}.

(** A blank object, nothing allocated. *)
Definition fresh : State Z := {| this := blank; allocations := 0 |}.

(** [SimpleVector<int>{1, 2, 3}] *)
Definition three : State Z :=
  {| this := {| items_ := [Holds 1; Holds 2; Holds 3]%Z; size_ := 3;
                capacity_ := 3 |};
     allocations := 1 |}.

(** [SimpleVector<int>{1}] *)
Definition one : State Z :=
  {| this := {| items_ := [Holds 1%Z]; size_ := 1; capacity_ := 1 |};
     allocations := 1 |}.

(** [SimpleVector<int>{1, 2}] after [Reserve(4)] *)
Definition roomy : State Z :=
  {| this := {| items_ := [Holds 1%Z; Holds 2%Z; Unspecified; Unspecified];
                size_ := 2; capacity_ := 4 |};
     allocations := 1 |}.

(** * Facts *)

(** One step of a member function on an explicit state. *)
Ltac mstep :=
  cbv beta iota zeta delta
    [mbind M_bind mret M_ret get put set_items_ set_size_ set_capacity_
     ArrayPtr_new ArrayPtr_swap ArrayPtr_move_assign assert throw access
     GetSize GetCapacity IsEmpty this allocations items_ size_ capacity_
     option_bind PushBack_call Insert_call run_call].

(** ** The loops *)

Section LoopFacts.
Context {T : Type}.
Implicit Types (pre post mid old : list (cell T)) (c x : cell T).
Variable leave : cell T -> cell T.

Lemma insert_middle pre x post c :
  <[length pre:=c]> (pre ++ x :: post) = pre ++ c :: post.
Proof.
  rewrite <- (Nat.add_0_r (length pre)). by rewrite insert_app_r.
Qed.

Lemma store_middle pre x post c (i : nat) :
  i = length pre -> store (pre ++ x :: post) i c = Some (pre ++ c :: post).
Proof.
  intros ->. unfold store. rewrite decide_True.
  - by rewrite insert_middle.
  - rewrite length_app. simpl. lia.
Qed.

Lemma snoc_assoc pre x post : pre ++ x :: post = (pre ++ [x]) ++ post.
Proof. by rewrite <- app_assoc. Qed.

Lemma length_snoc pre x : length (pre ++ [x]) = S (length pre).
Proof. rewrite length_app. simpl. lia. Qed.

Lemma forward_loop_app mid : forall spre spost dpre old dpost (first n d : nat),
  length old = length mid -> first = length spre -> n = length mid ->
  d = length dpre ->
  forward_loop leave (spre ++ mid ++ spost) first n (dpre ++ old ++ dpost) d
  = Some (spre ++ (leave <$> mid) ++ spost, dpre ++ mid ++ dpost).
Proof.
  induction mid as [|c mid IH]; intros spre spost dpre old dpost first n d Hold -> -> ->.
  - destruct old; [done | discriminate].
  - destruct old as [|o old]; [discriminate|]. simpl in Hold.
    cbn [forward_loop length app].
    rewrite (list_lookup_middle spre _ c (length spre)) by done.
    cbn [mbind option_bind].
    rewrite (store_middle dpre o _ c) by done.
    cbn [mbind option_bind].
    rewrite insert_middle.
    rewrite (snoc_assoc spre), (snoc_assoc dpre).
    rewrite (IH (spre ++ [leave c]) spost (dpre ++ [c]) old dpost);
      rewrite ?length_snoc; try done; [|lia].
    by rewrite <- !app_assoc.
Qed.

Lemma backward_loop_app mid : forall spre spost dpre old dpost (first n d_last : nat),
  length old = length mid -> first = length spre -> n = length mid ->
  d_last = (length dpre + length mid)%nat ->
  backward_loop leave (spre ++ mid ++ spost) first n (dpre ++ old ++ dpost) d_last
  = Some (spre ++ (leave <$> mid) ++ spost, dpre ++ mid ++ dpost).
Proof.
  induction mid as [|c mid IH] using rev_ind;
    intros spre spost dpre old dpost first n d_last Hold -> -> ->.
  - destruct old; [done | discriminate].
  - destruct old as [|o old _] using rev_ind.
    { rewrite length_snoc in Hold. discriminate. }
    rewrite !length_snoc in Hold. rewrite length_snoc.
    rewrite Nat.add_succ_r. cbn [backward_loop].
    rewrite <- !(app_assoc _ [_]). cbn [app].
    rewrite (app_assoc spre mid), (app_assoc dpre old).
    rewrite (list_lookup_middle (spre ++ mid) _ c) by (by rewrite length_app).
    cbn [mbind option_bind].
    rewrite (store_middle (dpre ++ old) o _ c) by (rewrite length_app; lia).
    cbn [mbind option_bind].
    rewrite <- (length_app spre mid), insert_middle.
    rewrite <- !app_assoc.
    rewrite (IH spre (leave c :: spost) dpre old (c :: dpost)); try done; [|lia].
    rewrite fmap_app. by rewrite <- !app_assoc.
Qed.

Lemma forward_loop_within_app mid : forall pre x post (first n d : nat),
  first = S (length pre) -> n = length mid -> d = length pre ->
  exists y, forward_loop_within leave (pre ++ x :: mid ++ post) first n d
            = Some (pre ++ mid ++ y :: post).
Proof.
  induction mid as [|c mid IH]; intros pre x post first n d -> -> ->.
  - by exists x.
  - cbn [forward_loop_within length].
    rewrite (snoc_assoc pre x), <- (length_snoc pre x). cbn [app].
    rewrite (list_lookup_middle (pre ++ [x]) _ c) by done.
    cbn [mbind option_bind].
    rewrite insert_middle. rewrite <- (snoc_assoc pre x).
    rewrite (store_middle pre x _ c) by done.
    cbn [mbind option_bind].
    rewrite (snoc_assoc pre c).
    rewrite (length_snoc pre x), <- (length_snoc pre c).
    destruct (IH (pre ++ [c]) (leave c) post (S (length (pre ++ [c])))
                (length mid) (length (pre ++ [c]))) as [y Hy]; try done.
    exists y. rewrite Hy. by rewrite <- !app_assoc.
Qed.

Lemma backward_loop_within_app mid : forall pre x post (first n d_last : nat),
  first = length pre -> n = length mid -> d_last = S (length pre + length mid) ->
  exists y, backward_loop_within leave (pre ++ mid ++ x :: post) first n d_last
            = Some (pre ++ y :: mid ++ post).
Proof.
  induction mid as [|c mid IH] using rev_ind; intros pre x post first n d_last -> -> ->.
  - by exists x.
  - rewrite length_snoc. cbn [backward_loop_within].
    rewrite <- !(app_assoc _ [_]). cbn [app].
    rewrite (app_assoc pre mid).
    rewrite (list_lookup_middle (pre ++ mid) _ c) by (by rewrite length_app).
    cbn [mbind option_bind].
    rewrite Nat.add_succ_r.
    rewrite <- (length_app pre mid), insert_middle.
    rewrite (snoc_assoc (pre ++ mid) (leave c)).
    rewrite (store_middle _ x _ c) by (by rewrite length_snoc).
    cbn [mbind option_bind].
    rewrite <- !app_assoc. cbn [app].
    destruct (IH pre (leave c) (c :: post) (length pre) (length mid)
                (S (length (pre ++ mid)))) as [y Hy]; try done.
    { by rewrite length_app. }
    exists y. rewrite Hy. by rewrite <- ?app_assoc.
Qed.

Lemma fill_loop_app old : forall pre post (first n : nat) c,
  first = length pre -> n = length old ->
  fill_loop (pre ++ old ++ post) first n c = Some (pre ++ replicate n c ++ post).
Proof.
  induction old as [|o old IH]; intros pre post first n c -> ->.
  - done.
  - cbn [fill_loop length replicate app].
    rewrite (store_middle pre o _ c) by done.
    cbn [mbind option_bind].
    rewrite (snoc_assoc pre c).
    rewrite (IH (pre ++ [c]) post); rewrite ?length_snoc; try done.
    by rewrite <- !app_assoc.
Qed.
End LoopFacts.

Section AlgorithmFacts.
Context `{Element T}.
Implicit Types (src dst buf : list (cell T)) (c : cell T).

Lemma distance_le (first last : N) :
  first <= last -> distance first last = Some (N.to_nat last - N.to_nat first)%nat.
Proof.
  intros Hle. unfold distance. rewrite decide_True by done.
  f_equal. lia.
Qed.

Lemma split3 {A} (l : list A) (p n : nat) :
  (p <= n)%nat -> (n <= length l)%nat ->
  l = take p l ++ take (n - p) (drop p l) ++ drop n l.
Proof.
  intros Hp Hn.
  rewrite <- (take_drop p l) at 1. f_equal.
  rewrite <- (take_drop (n - p) (drop p l)) at 1. f_equal.
  rewrite drop_drop. f_equal. lia.
Qed.

Lemma forward_loop_prefix leave src dst (n : nat) :
  (n <= length src)%nat -> (n <= length dst)%nat ->
  forward_loop leave src 0 n dst 0
  = Some ((leave <$> take n src) ++ drop n src, take n src ++ drop n dst).
Proof.
  intros Hs Hd.
  rewrite <- (take_drop n src) at 1. rewrite <- (take_drop n dst) at 1.
  apply (forward_loop_app leave (take n src) [] (drop n src) [] (take n dst));
    rewrite ?length_take; simpl; lia.
Qed.

Lemma std_copy_prefix src dst (last : N) :
  (N.to_nat last <= length src)%nat -> (N.to_nat last <= length dst)%nat ->
  std_copy src 0 last dst 0
  = Some (take (N.to_nat last) src ++ drop (N.to_nat last) dst).
Proof.
  intros Hs Hd. unfold std_copy.
  rewrite distance_le by lia. cbn [mbind option_bind].
  change (N.to_nat 0) with 0%nat. rewrite Nat.sub_0_r.
  by rewrite forward_loop_prefix.
Qed.

Lemma std_move_prefix src dst (last : N) :
  (N.to_nat last <= length src)%nat -> (N.to_nat last <= length dst)%nat ->
  std_move src 0 last dst 0
  = Some ((moved_from <$> take (N.to_nat last) src) ++ drop (N.to_nat last) src,
          take (N.to_nat last) src ++ drop (N.to_nat last) dst).
Proof.
  intros Hs Hd. unfold std_move.
  rewrite distance_le by lia. cbn [mbind option_bind].
  change (N.to_nat 0) with 0%nat. rewrite Nat.sub_0_r.
  by rewrite forward_loop_prefix.
Qed.

(** The backward loops of [Insert] into a second block: the range
    [pos, size) lands one slot further back. *)
Lemma backward_loop_shift leave src dst (p n : nat) :
  (p <= n)%nat -> (n <= length src)%nat -> (n < length dst)%nat ->
  backward_loop leave src p (n - p) dst (S n)
  = Some (take p src ++ (leave <$> take (n - p) (drop p src)) ++ drop n src,
          take (S p) dst ++ take (n - p) (drop p src) ++ drop (S n) dst).
Proof.
  intros Hp Hs Hd.
  rewrite (split3 src p n) at 1 by done.
  rewrite (split3 dst (S p) (S n)) at 1 by lia.
  apply backward_loop_app; rewrite ?length_take, ?length_drop; lia.
Qed.

Lemma std_copy_backward_shift src dst (pos size : N) :
  pos <= size -> (N.to_nat size <= length src)%nat ->
  (N.to_nat size < length dst)%nat ->
  std_copy_backward src pos size dst (size + 1)
  = Some (take (S (N.to_nat pos)) dst
          ++ take (N.to_nat size - N.to_nat pos) (drop (N.to_nat pos) src)
          ++ drop (S (N.to_nat size)) dst).
Proof.
  intros Hp Hs Hd. unfold std_copy_backward.
  rewrite distance_le by done. cbn [mbind option_bind].
  replace (N.to_nat (size + 1)) with (S (N.to_nat size)) by lia.
  by rewrite backward_loop_shift by lia.
Qed.

Lemma std_move_backward_shift src dst (pos size : N) :
  pos <= size -> (N.to_nat size <= length src)%nat ->
  (N.to_nat size < length dst)%nat ->
  snd <$> std_move_backward src pos size dst (size + 1)
  = Some (take (S (N.to_nat pos)) dst
          ++ take (N.to_nat size - N.to_nat pos) (drop (N.to_nat pos) src)
          ++ drop (S (N.to_nat size)) dst).
Proof.
  intros Hp Hs Hd. unfold std_move_backward.
  rewrite distance_le by done. cbn [mbind option_bind].
  replace (N.to_nat (size + 1)) with (S (N.to_nat size)) by lia.
  by rewrite backward_loop_shift by lia.
Qed.

(** The backward loops of [Insert] within the block, followed by the
    assignment to the slot at [pos]. *)
Lemma backward_loop_within_shift leave buf (p n : nat) c :
  (p <= n)%nat -> (n < length buf)%nat ->
  (buf' ← backward_loop_within leave buf p (n - p) (S n); store buf' p c)
  = Some (take p buf ++ c :: take (n - p) (drop p buf) ++ drop (S n) buf).
Proof.
  intros Hp Hn.
  destruct (lookup_lt_is_Some_2 buf n Hn) as [x Hx].
  rewrite (split3 buf p n) at 1 by lia.
  rewrite (drop_S buf x n Hx).
  destruct (backward_loop_within_app leave (take (n - p) (drop p buf))
              (take p buf) x (drop (S n) buf) p (n - p) (S n)) as [y ->];
    rewrite ?length_take, ?length_drop; try lia.
  cbn [mbind option_bind].
  apply store_middle. rewrite length_take. lia.
Qed.

Lemma std_copy_backward_within_shift buf (pos size : N) c :
  pos <= size -> (N.to_nat size < length buf)%nat ->
  (buf' ← std_copy_backward_within buf pos size (size + 1);
   store buf' (N.to_nat pos) c)
  = Some (take (N.to_nat pos) buf
          ++ c :: take (N.to_nat size - N.to_nat pos) (drop (N.to_nat pos) buf)
          ++ drop (S (N.to_nat size)) buf).
Proof.
  intros Hp Hn. unfold std_copy_backward_within.
  rewrite distance_le by done. cbn [mbind option_bind].
  replace (N.to_nat (size + 1)) with (S (N.to_nat size)) by lia.
  apply backward_loop_within_shift; lia.
Qed.

Lemma std_move_backward_within_shift buf (pos size : N) c :
  pos <= size -> (N.to_nat size < length buf)%nat ->
  (buf' ← std_move_backward_within buf pos size (size + 1);
   store buf' (N.to_nat pos) c)
  = Some (take (N.to_nat pos) buf
          ++ c :: take (N.to_nat size - N.to_nat pos) (drop (N.to_nat pos) buf)
          ++ drop (S (N.to_nat size)) buf).
Proof.
  intros Hp Hn. unfold std_move_backward_within.
  rewrite distance_le by done. cbn [mbind option_bind].
  replace (N.to_nat (size + 1)) with (S (N.to_nat size)) by lia.
  apply backward_loop_within_shift; lia.
Qed.

(** The forward loop of [Erase]. *)
Lemma std_move_within_shift buf (pos size : N) :
  pos < size -> (N.to_nat size <= length buf)%nat ->
  exists y,
    std_move_within buf (pos + 1) size pos
    = Some (take (N.to_nat pos) buf
            ++ take (N.to_nat size - S (N.to_nat pos)) (drop (S (N.to_nat pos)) buf)
            ++ y :: drop (N.to_nat size) buf).
Proof.
  intros Hp Hn. unfold std_move_within.
  rewrite distance_le by lia. cbn [mbind option_bind].
  replace (N.to_nat (pos + 1)) with (S (N.to_nat pos)) by lia.
  set (p := N.to_nat pos). set (n := N.to_nat size).
  assert (p < n)%nat as Hpn by lia.
  destruct (lookup_lt_is_Some_2 buf p ltac:(lia)) as [x Hx].
  assert (buf = take p buf ++ x :: take (n - S p) (drop (S p) buf) ++ drop n buf)
    as Hbuf.
  { rewrite (split3 buf p n) at 1 by lia. f_equal.
    rewrite (drop_S buf x p Hx).
    replace (n - p)%nat with (S (n - S p)) by lia. done. }
  destruct (forward_loop_within_app moved_from
              (take (n - S p) (drop (S p) buf)) (take p buf) x (drop n buf)
              (S p) (n - S p) p) as [y Hy];
    rewrite ?length_take, ?length_drop; try lia.
  exists y. rewrite Hbuf at 1.
  replace (n - N.to_nat (pos + 1))%nat with (n - S p)%nat by lia.
  exact Hy.
Qed.

Lemma std_fill_range buf (first last : N) c :
  first <= last -> (N.to_nat last <= length buf)%nat ->
  std_fill buf first last c
  = Some (take (N.to_nat first) buf
          ++ replicate (N.to_nat last - N.to_nat first) c
          ++ drop (N.to_nat last) buf).
Proof.
  intros Hf Hl. unfold std_fill.
  rewrite distance_le by done. cbn [mbind option_bind].
  rewrite (split3 buf (N.to_nat first) (N.to_nat last)) at 1 by lia.
  apply fill_loop_app; rewrite ?length_take, ?length_drop; lia.
Qed.
End AlgorithmFacts.

(** ** The member functions *)

Section OpFacts.
Context `{Element T}.
Implicit Types (v : t T) (s : State T) (items : list (cell T)).
Implicit Types (size capacity allocs pos : N) (a : argument T).

Lemma wrap_small (x : N) : x < size_t_modulus -> wrap x = x.
Proof. apply N.mod_small. Qed.

Lemma wrap_pred (x : N) :
  0 < x -> x < size_t_modulus -> wrap (x + (size_t_modulus - 1)) = x - 1.
Proof.
  intros H0 Hx. unfold wrap.
  replace (x + (size_t_modulus - 1)) with ((x - 1) + 1 * size_t_modulus) by lia.
  rewrite N.Div0.mod_add. apply N.mod_small. lia.
Qed.

Lemma store_Some items (i : nat) (c : cell T) :
  (i < length items)%nat -> store items i c = Some (<[i:=c]> items).
Proof. intros. unfold store. by rewrite decide_True. Qed.

(** Writing the slot after a copied prefix of a fresh block. *)
Lemma store_after_prefix items (n m : nat) (c : cell T) :
  (n <= length items)%nat -> (n < m)%nat ->
  store (take n items ++ drop n (replicate m Unspecified)) n c
  = Some (take n items ++ c :: replicate (m - S n) Unspecified).
Proof.
  intros Hn Hm.
  replace (drop n (replicate m (@Unspecified T)))
    with (@Unspecified T :: replicate (m - S n) Unspecified).
  - apply store_middle. rewrite length_take. lia.
  - rewrite drop_replicate. replace (m - n)%nat with (S (m - S n)) by lia. done.
Qed.

Lemma PushBack_in_place a items size capacity allocs :
  size < capacity -> (N.to_nat size < length items)%nat ->
  PushBack_call a
    {| this := {| items_ := items; size_ := size; capacity_ := capacity |};
       allocations := allocs |}
  = Returns ()
      {| this := {| items_ := <[N.to_nat size:=Holds (value_of a)]> items;
                    size_ := wrap (size + 1); capacity_ := capacity |};
         allocations := allocs |}.
Proof.
  intros Hc Hl.
  destruct a; unfold PushBack_call, PushBack, PushBack_move; mstep;
    rewrite decide_True by done; rewrite store_Some by done; done.
Qed.

Lemma PushBack_grows a items size capacity allocs :
  let new_capacity := N.max 1 (wrap (2 * capacity)) in
  ~ size < capacity -> (N.to_nat size <= length items)%nat ->
  size < new_capacity ->
  PushBack_call a
    {| this := {| items_ := items; size_ := size; capacity_ := capacity |};
       allocations := allocs |}
  = Returns ()
      {| this :=
           {| items_ := take (N.to_nat size) items
                        ++ Holds (value_of a)
                        :: replicate (N.to_nat new_capacity - S (N.to_nat size))
                             Unspecified;
              size_ := wrap (size + 1); capacity_ := new_capacity |};
         allocations := allocs + 1 |}.
Proof.
  intros new_capacity Hc Hl Hn.
  destruct a; unfold PushBack_call, PushBack, PushBack_move; mstep;
    rewrite decide_False by done;
    rewrite ?std_copy_prefix, ?std_move_prefix by (rewrite ?length_replicate; lia);
    mstep; rewrite store_after_prefix by lia; mstep;
    rewrite decide_False by (fold new_capacity; lia); done.
Qed.

Lemma Insert_in_place pos a items size capacity allocs :
  pos <= size -> size < capacity -> (N.to_nat size < length items)%nat ->
  size + 1 < size_t_modulus ->
  Insert_call pos a
    {| this := {| items_ := items; size_ := size; capacity_ := capacity |};
       allocations := allocs |}
  = Returns pos
      {| this :=
           {| items_ := take (N.to_nat pos) items
                        ++ Holds (value_of a)
                        :: take (N.to_nat size - N.to_nat pos)
                             (drop (N.to_nat pos) items)
                        ++ drop (S (N.to_nat size)) items;
              size_ := size + 1; capacity_ := capacity |};
         allocations := allocs |}.
Proof.
  intros Hp Hc Hl Hw.
  pose proof (std_copy_backward_within_shift items pos size
                (Holds (value_of a)) Hp Hl) as Hcopy.
  pose proof (std_move_backward_within_shift items pos size
                (Holds (value_of a)) Hp Hl) as Hmove.
  apply bind_Some in Hcopy as (buf1 & Hcopy & Hstore1).
  apply bind_Some in Hmove as (buf2 & Hmove & Hstore2).
  destruct a; cbn [value_of] in *; unfold Insert_call, Insert, Insert_move;
    mstep; rewrite !decide_True by done; rewrite (wrap_small (size + 1)) by done;
    rewrite ?Hcopy, ?Hmove; mstep; rewrite ?Hstore1, ?Hstore2; mstep;
    by rewrite wrap_small.
Qed.

(** Writing the slot left open between a copied prefix and a copied
    suffix of a fresh block. *)
Lemma store_gap items (mid : list (cell T)) (p n m : nat) (c : cell T) :
  (p <= length items)%nat -> (p <= n)%nat -> (n < m)%nat ->
  let arr := take p items ++ drop p (replicate m Unspecified) in
  store (take (S p) arr ++ mid ++ drop (S n) arr) p c
  = Some (take p items ++ c :: mid ++ replicate (m - S n) Unspecified).
Proof.
  intros Hp Hn Hm arr.
  assert (length (take p items) = p) as Hlen by (rewrite length_take; lia).
  assert (take (S p) arr = take p items ++ [Unspecified]) as ->.
  { unfold arr. rewrite take_app, Hlen, take_take, Nat.min_r by lia.
    f_equal. replace (S p - p)%nat with 1%nat by lia.
    rewrite drop_replicate, take_replicate.
    by replace (1 `min` (m - p))%nat with 1%nat by lia. }
  assert (drop (S n) arr = replicate (m - S n) Unspecified) as ->.
  { unfold arr. rewrite drop_app, Hlen, drop_drop, !drop_replicate.
    rewrite drop_ge by (rewrite length_take; lia). cbn [app].
    f_equal. lia. }
  rewrite <- app_assoc. cbn [app]. by apply store_middle.
Qed.

Lemma drop_moved_prefix (f : cell T -> cell T) items (p : nat) :
  (p <= length items)%nat ->
  drop p ((f <$> take p items) ++ drop p items) = drop p items.
Proof.
  intros Hp. apply drop_app_length'. rewrite length_fmap, length_take. lia.
Qed.

Lemma length_moved_prefix (f : cell T -> cell T) items (p : nat) :
  length ((f <$> take p items) ++ drop p items) = length items.
Proof.
  rewrite length_app, length_fmap, length_take, length_drop. lia.
Qed.

Lemma Insert_grows pos a items size capacity allocs :
  let new_capacity := N.max 1 (wrap (2 * capacity)) in
  pos <= size -> ~ size < capacity -> (N.to_nat size <= length items)%nat ->
  size < new_capacity -> size + 1 < size_t_modulus ->
  Insert_call pos a
    {| this := {| items_ := items; size_ := size; capacity_ := capacity |};
       allocations := allocs |}
  = Returns pos
      {| this :=
           {| items_ := take (N.to_nat pos) items
                        ++ Holds (value_of a)
                        :: take (N.to_nat size - N.to_nat pos)
                             (drop (N.to_nat pos) items)
                        ++ replicate (N.to_nat new_capacity - S (N.to_nat size))
                             Unspecified;
              size_ := size + 1; capacity_ := new_capacity |};
         allocations := allocs + 1 |}.
Proof.
  intros new_capacity Hp Hc Hl Hn Hw.
  set (arr1 := take (N.to_nat pos) items
               ++ drop (N.to_nat pos)
                    (replicate (N.to_nat new_capacity) Unspecified)).
  assert (N.to_nat size < length arr1)%nat as Harr1.
  { unfold arr1.
    rewrite length_app, length_take, length_drop, length_replicate. lia. }
  destruct a as [value|value]; cbn [value_of];
    unfold Insert_call, Insert, Insert_move; mstep;
    rewrite decide_True by done; rewrite decide_False by done;
    rewrite (wrap_small (size + 1)) by done.
  - rewrite std_copy_prefix by (rewrite ?length_replicate; lia).
    mstep. fold new_capacity. fold arr1.
    rewrite std_copy_backward_shift by done.
    mstep. unfold arr1. rewrite store_gap by lia.
    mstep. rewrite decide_False by lia. by rewrite wrap_small.
  - rewrite std_move_prefix by (rewrite ?length_replicate; lia).
    mstep. fold new_capacity. fold arr1.
    pose proof (std_move_backward_shift
                  ((moved_from <$> take (N.to_nat pos) items)
                   ++ drop (N.to_nat pos) items) arr1 pos size Hp) as Hmove.
    rewrite length_moved_prefix, drop_moved_prefix in Hmove by lia.
    specialize (Hmove Hl Harr1).
    apply fmap_Some in Hmove as ([old arr2] & -> & Harr2).
    cbn [snd] in Harr2. subst arr2.
    mstep. unfold arr1. rewrite store_gap by lia.
    mstep. rewrite decide_False by lia. by rewrite wrap_small.
Qed.

Lemma Erase_shifts pos items size capacity allocs :
  pos < size -> (N.to_nat size <= length items)%nat -> size < size_t_modulus ->
  exists y,
    Erase pos
      {| this := {| items_ := items; size_ := size; capacity_ := capacity |};
         allocations := allocs |}
    = Returns pos
        {| this :=
             {| items_ := take (N.to_nat pos) items
                          ++ take (N.to_nat size - S (N.to_nat pos))
                               (drop (S (N.to_nat pos)) items)
                          ++ y :: drop (N.to_nat size) items;
                size_ := size - 1; capacity_ := capacity |};
           allocations := allocs |}.
Proof.
  intros Hp Hl Hw.
  destruct (std_move_within_shift items pos size Hp Hl) as [y Hy].
  exists y. unfold Erase. mstep.
  rewrite decide_True by done. rewrite Hy. mstep.
  rewrite wrap_pred by lia. done.
Qed.

Lemma Reserve_grows new_capacity items size capacity allocs :
  capacity < new_capacity -> (N.to_nat size <= length items)%nat ->
  size <= new_capacity ->
  Reserve new_capacity
    {| this := {| items_ := items; size_ := size; capacity_ := capacity |};
       allocations := allocs |}
  = Returns ()
      {| this :=
           {| items_ := take (N.to_nat size) items
                        ++ replicate (N.to_nat new_capacity - N.to_nat size)
                             Unspecified;
              size_ := size; capacity_ := new_capacity |};
         allocations := allocs + 1 |}.
Proof.
  intros Hc Hl Hn. unfold Reserve. mstep.
  rewrite decide_False by lia.
  rewrite std_copy_prefix by (rewrite ?length_replicate; lia).
  mstep. rewrite decide_False by lia. by rewrite drop_replicate.
Qed.

Lemma Reserve_enough new_capacity s :
  new_capacity <= capacity_ (this s) -> Reserve new_capacity s = Returns () s.
Proof.
  intros Hc. unfold Reserve. mstep. fold (this s). fold (capacity_ (this s)).
  by rewrite decide_True.
Qed.

Lemma Resize_grows new_size items size capacity allocs :
  let new_capacity := N.max new_size (wrap (2 * capacity)) in
  capacity < new_size -> (N.to_nat size <= length items)%nat ->
  size < new_size ->
  Resize new_size
    {| this := {| items_ := items; size_ := size; capacity_ := capacity |};
       allocations := allocs |}
  = Returns ()
      {| this :=
           {| items_ := take (N.to_nat size) items
                        ++ replicate (N.to_nat new_size - N.to_nat size)
                             (Holds Type_default)
                        ++ replicate (N.to_nat new_capacity - N.to_nat new_size)
                             Unspecified;
              size_ := new_size; capacity_ := new_capacity |};
         allocations := allocs + 1 |}.
Proof.
  intros new_capacity Hc Hl Hn. unfold Resize. mstep.
  rewrite !decide_False by lia. mstep. rewrite decide_True by done.
  rewrite std_move_prefix by (rewrite ?length_replicate; lia).
  mstep. fold new_capacity.
  rewrite std_fill_range;
    [|lia|rewrite length_app, length_take, length_drop, length_replicate; lia].
  mstep. rewrite decide_False by lia.
  rewrite take_app_length' by (rewrite length_take; lia).
  rewrite drop_app_ge by (rewrite length_take; lia).
  rewrite drop_drop, drop_replicate, length_take.
  match goal with
  | |- context [replicate ?n Unspecified] =>
      by replace n with (N.to_nat new_capacity - N.to_nat new_size)%nat by lia
  end.
Qed.

Lemma Resize_within_capacity new_size items size capacity allocs :
  size < new_size -> new_size <= capacity ->
  Resize new_size
    {| this := {| items_ := items; size_ := size; capacity_ := capacity |};
       allocations := allocs |}
  = Returns ()
      {| this := {| items_ := items; size_ := new_size; capacity_ := capacity |};
         allocations := allocs |}.
Proof.
  intros Hn Hc. unfold Resize. mstep.
  rewrite !decide_False by lia. mstep. by rewrite ?decide_False by lia.
Qed.

Lemma ctor_copy_result (other : t T) s :
  within_block other ->
  construct (ctor_copy other) s
  = Returns
      {| items_ := elements other; size_ := size_ other;
         capacity_ := capacity_ other |}
      {| this := this s;
         allocations := if decide (size_ other = 0) then allocations s
                        else allocations s + 1 |}.
Proof.
  intros Hl. unfold within_block in Hl. unfold construct, ctor_copy, elements.
  destruct s as [v allocs], other as [items size capacity]. mstep.
  cbn [items_ size_ capacity_] in Hl.
  rewrite std_copy_prefix by (rewrite ?length_replicate; lia).
  mstep. rewrite drop_replicate, Nat.sub_diag. cbn [replicate].
  by rewrite app_nil_r.
Qed.
End OpFacts.

(** ** The invariants of the data model *)

Section Invariant.
Context `{Element T}.
Implicit Types (v : t T) (s : State T) (items : list (cell T)).
Implicit Types (size capacity allocs pos : N) (a : argument T).

Lemma Resize_shrinks new_size items size capacity allocs :
  new_size < size -> (N.to_nat size <= length items)%nat ->
  new_size <= capacity ->
  Resize new_size
    {| this := {| items_ := items; size_ := size; capacity_ := capacity |};
       allocations := allocs |}
  = Returns ()
      {| this :=
           {| items_ := take (N.to_nat new_size) items
                        ++ replicate (N.to_nat size - N.to_nat new_size)
                             (Holds Type_default)
                        ++ drop (N.to_nat size) items;
              size_ := new_size; capacity_ := capacity |};
         allocations := allocs |}.
Proof.
  intros Hn Hl Hc. unfold Resize. mstep.
  rewrite decide_False by lia. rewrite decide_True by done.
  rewrite std_fill_range by lia. mstep. by rewrite decide_False by lia.
Qed.

(** The invariants of the data model are kept by the modifiers. *)
Lemma PushBack_call_valid a s :
  valid (this s) -> doubling_fits (this s) ->
  exists s', PushBack_call a s = Returns () s' /\ valid (this s').
Proof.
  destruct s as [[items size capacity] allocs].
  unfold valid, lockstep, doubling_fits. cbn [this items_ size_ capacity_].
  intros [Hsize Hlock] Hfit.
  pose proof (wrap_small (2 * capacity) Hfit) as Hw.
  unfold size_t_modulus in Hfit.
  destruct (decide (size < capacity)) as [Hroom|Hfull].
  - rewrite PushBack_in_place by lia. eexists. split; [done|].
    cbn [this items_ size_ capacity_].
    rewrite length_insert, wrap_small by (unfold size_t_modulus; lia). lia.
  - rewrite PushBack_grows by (rewrite ?Hw; lia). eexists. split; [done|].
    cbn [this items_ size_ capacity_].
    rewrite Hw, wrap_small by (unfold size_t_modulus; lia).
    rewrite length_app. cbn [length].
    rewrite length_take, length_replicate. lia.
Qed.

Lemma Insert_call_valid pos a s :
  valid (this s) -> doubling_fits (this s) -> pos <= size_ (this s) ->
  exists s', Insert_call pos a s = Returns pos s' /\ valid (this s').
Proof.
  destruct s as [[items size capacity] allocs].
  unfold valid, lockstep, doubling_fits. cbn [this items_ size_ capacity_].
  intros [Hsize Hlock] Hfit Hpos.
  pose proof (wrap_small (2 * capacity) Hfit) as Hw.
  unfold size_t_modulus in Hfit.
  destruct (decide (size < capacity)) as [Hroom|Hfull].
  - rewrite Insert_in_place by (unfold size_t_modulus; lia).
    eexists. split; [done|]. cbn [this items_ size_ capacity_].
    rewrite length_app. cbn [length].
    rewrite length_app, !length_take, !length_drop. lia.
  - rewrite Insert_grows by (rewrite ?Hw; unfold size_t_modulus; lia).
    eexists. split; [done|]. cbn [this items_ size_ capacity_].
    rewrite Hw, length_app. cbn [length].
    rewrite length_app, !length_take, length_drop, length_replicate. lia.
Qed.

Lemma Erase_valid pos s :
  valid (this s) -> doubling_fits (this s) -> pos < size_ (this s) ->
  exists s', Erase pos s = Returns pos s' /\ valid (this s').
Proof.
  destruct s as [[items size capacity] allocs].
  unfold valid, lockstep, doubling_fits. cbn [this items_ size_ capacity_].
  intros [Hsize Hlock] Hfit Hpos. unfold size_t_modulus in Hfit.
  destruct (Erase_shifts pos items size capacity allocs) as [y Hy];
    [done|lia|unfold size_t_modulus; lia|].
  eexists. split; [exact Hy|]. cbn [this items_ size_ capacity_].
  rewrite length_app, length_app. cbn [length].
  rewrite !length_take, !length_drop. lia.
Qed.

Lemma Reserve_valid new_capacity s :
  valid (this s) ->
  exists s', Reserve new_capacity s = Returns () s' /\ valid (this s').
Proof.
  intros Hvalid.
  destruct (decide (new_capacity <= capacity_ (this s))) as [Hle|Hgt].
  { exists s. split; [by apply Reserve_enough|done]. }
  destruct s as [[items size capacity] allocs].
  unfold valid, lockstep in *. cbn [this items_ size_ capacity_] in *.
  destruct Hvalid as [Hsize Hlock].
  rewrite Reserve_grows by lia. eexists. split; [done|].
  cbn [this items_ size_ capacity_].
  rewrite length_app, length_take, length_replicate. lia.
Qed.

Lemma Resize_valid new_size s :
  valid (this s) -> doubling_fits (this s) ->
  exists s', Resize new_size s = Returns () s' /\ valid (this s').
Proof.
  destruct s as [[items size capacity] allocs].
  unfold valid, lockstep, doubling_fits. cbn [this items_ size_ capacity_].
  intros [Hsize Hlock] Hfit.
  pose proof (wrap_small (2 * capacity) Hfit) as Hw.
  destruct (decide (new_size = size)) as [->|Hne].
  { eexists. split; [unfold Resize; mstep; by rewrite decide_True|].
    split; [exact Hsize|exact Hlock]. }
  destruct (decide (new_size < size)) as [Hshrink|Hgrow].
  { rewrite Resize_shrinks by lia. eexists. split; [done|].
    cbn [this items_ size_ capacity_].
    rewrite !length_app, length_take, length_replicate, length_drop. lia. }
  destruct (decide (capacity < new_size)) as [Hmore|Hroom].
  - rewrite Resize_grows by lia. eexists. split; [done|].
    cbn [this items_ size_ capacity_].
    rewrite Hw, !length_app, length_take, !length_replicate. lia.
  - rewrite Resize_within_capacity by lia. eexists. split; [done|].
    cbn [this items_ size_ capacity_]. lia.
Qed.

(** The copy constructor keeps them only for a source that is full. *)
Lemma ctor_copy_lockstep (other : t T) s :
  within_block other ->
  exists copy s',
    construct (ctor_copy other) s = Returns copy s' /\
    size_ copy = size_ other /\
    length (items_ copy) = N.to_nat (size_ other) /\
    elements copy = elements other /\
    (lockstep copy <-> capacity_ other = size_ other).
Proof.
  intros Hin. rewrite ctor_copy_result by done. eexists _, _.
  split; [done|]. unfold within_block, lockstep, elements in *.
  cbn [items_ size_ capacity_].
  rewrite take_take, Nat.min_id, length_take.
  split; [done|]. split; [lia|]. split; [done|]. lia.
Qed.
End Invariant.

(** ** The specified properties *)

Section Properties.
Context `{Element T}.
Implicit Types (v : t T) (s : State T) (items : list (cell T)).
Implicit Types (size capacity allocs pos : N) (a : argument T).

(** C8: on a vector whose live elements lie in its block, [At(index)]
    returns the live element at [index] when [index < size], it throws
    [out_of_range] when [index >= size] and only then, and in both cases
    the vector (size, capacity, elements) is as before the call. *)
Theorem At_checked s (index : N) :
  within_block (this s) ->
  (index < size_ (this s) ->
     exists c, elements (this s) !! N.to_nat index = Some c /\
               At index s = Returns c s) /\
  (size_ (this s) <= index -> At index s = Throws out_of_range s) /\
  (forall e s', At index s = Throws e s' -> size_ (this s) <= index).
Proof.
  intros Hin. unfold within_block in Hin.
  destruct s as [[items size capacity] allocs]. cbn [this items_ size_] in *.
  unfold At, elements. mstep.
  split; [|split].
  - intros Hlt. rewrite decide_False by lia.
    destruct (lookup_lt_is_Some_2 items (N.to_nat index)) as [c Hc]; [lia|].
    exists c. rewrite lookup_take_lt by lia. by rewrite Hc.
  - intros Hge. by rewrite decide_True.
  - intros e s'. case_decide; [done|].
    by destruct (items !! N.to_nat index).
Qed.

(** C9: move construction gives the new object exactly the block, the
    size and the capacity of the source, and leaves the source with
    size 0, capacity 0 and no block. *)
Theorem ctor_move_transfers (other : t T) allocs :
  ctor_move other {| this := blank; allocations := allocs |}
  = Returns blank {| this := other; allocations := allocs |}.
Proof. by destruct other. Qed.

(** C10: copy-assigning a vector to itself changes nothing: size,
    capacity and elements are as before. *)
Theorem self_assignment_is_noop s :
  operator_assign Self s = Returns () s.
Proof. done. Qed.

(** C4: when [PushBack], [Insert] or [Resize] needs more than the
    current capacity, the call returns with the capacity
    [max(requiredMinimum, 2 * capacity)], the required minimum being
    [size + 1] for [PushBack] and [Insert] and [new_size] for [Resize];
    from capacity 0 that is [max(1, requiredMinimum)].  The vector has
    [size <= capacity], its live elements lie in its block, and
    [2 * capacity] does not wrap around. *)
Theorem growth_rule (c : growing_call T) s :
  size_ (this s) <= capacity_ (this s) -> within_block (this s) ->
  doubling_fits (this s) -> precondition c (this s) ->
  capacity_ (this s) < required_minimum c (this s) ->
  exists s',
    run_call c s = Returns () s' /\
    capacity_ (this s')
    = N.max (required_minimum c (this s)) (2 * capacity_ (this s)) /\
    (capacity_ (this s) = 0 ->
     capacity_ (this s') = N.max 1 (required_minimum c (this s))).
Proof.
  destruct s as [[items size capacity] allocs].
  unfold within_block, doubling_fits.
  cbn [this items_ size_ capacity_].
  intros Hsize Hin Hfit Hpre Hgrow.
  pose proof (wrap_small (2 * capacity) Hfit) as Hw.
  destruct c as [a|pos a|new_size];
    cbn [required_minimum precondition size_] in *; unfold run_call.
  - rewrite PushBack_grows by (rewrite ?Hw; lia). eexists. split; [done|].
    cbn [this capacity_]. rewrite Hw. lia.
  - mstep. fold (Insert_call pos a).
    rewrite Insert_grows by (rewrite ?Hw; unfold size_t_modulus in *; lia).
    eexists. split; [done|]. cbn [this capacity_]. lia.
  - rewrite Resize_grows by (rewrite ?Hw; lia). eexists. split; [done|].
    cbn [this capacity_]. rewrite Hw. lia.
Qed.

(** Erasing at [p] what was inserted at [p]: the block [l] read up to
    [n] elements. *)
Lemma erase_inserted (A B C D : list (cell T)) (c y : cell T) (p n : nat) :
  length A = p -> (p + length B = n)%nat ->
  let l := A ++ c :: B ++ C in
  take n (take p l ++ take (S n - S p) (drop (S p) l) ++ y :: D) = A ++ B.
Proof.
  intros HA HB l. unfold l.
  rewrite (take_app_length' A _ p) by lia.
  rewrite (snoc_assoc A c), drop_app_length' by (rewrite length_snoc; lia).
  rewrite (take_app_length' B C) by lia.
  rewrite app_assoc. apply take_app_length'. rewrite length_app. lia.
Qed.

(** C7: on a valid vector, [Insert] at a position in [0, size]
    followed by [Erase] at the same position returns the original size
    and the original sequence of elements; the capacity may have
    changed.  [2 * capacity] does not wrap around. *)
Theorem Insert_Erase_round_trip s pos a :
  valid (this s) -> doubling_fits (this s) -> pos <= size_ (this s) ->
  exists s1 s2,
    Insert_call pos a s = Returns pos s1 /\
    Erase pos s1 = Returns pos s2 /\
    size_ (this s2) = size_ (this s) /\
    elements (this s2) = elements (this s).
Proof.
  destruct s as [[items size capacity] allocs].
  unfold valid, lockstep, doubling_fits, elements.
  cbn [this items_ size_ capacity_].
  intros [Hsize Hlock] Hfit Hpos.
  pose proof (wrap_small (2 * capacity) Hfit) as Hw.
  unfold size_t_modulus in Hfit.
  assert (length (take (N.to_nat pos) items) = N.to_nat pos) as HA
    by (rewrite length_take; lia).
  assert (N.to_nat pos
          + length (take (N.to_nat size - N.to_nat pos)
                      (drop (N.to_nat pos) items))
          = N.to_nat size)%nat as HB
    by (rewrite length_take, length_drop; lia).
  assert (take (N.to_nat pos) items
          ++ take (N.to_nat size - N.to_nat pos) (drop (N.to_nat pos) items)
          = take (N.to_nat size) items) as Hall.
  { rewrite take_take_drop. f_equal. lia. }
  destruct (decide (size < capacity)) as [Hroom|Hfull].
  - rewrite Insert_in_place by (unfold size_t_modulus; lia).
    edestruct Erase_shifts as [y Hy]; last first.
    { eexists _, _. split; [done|]. split; [exact Hy|].
      cbn [this items_ size_]. split; [lia|].
      replace (N.to_nat (size + 1 - 1)) with (N.to_nat size) by lia.
      replace (N.to_nat (size + 1)) with (S (N.to_nat size)) by lia.
      rewrite <- Hall. by apply erase_inserted. }
    all: unfold size_t_modulus; try lia.
    cbn [length]. rewrite !length_app. cbn [length].
    rewrite !length_app, !length_take, !length_drop. lia.
  - rewrite Insert_grows by (rewrite ?Hw; unfold size_t_modulus; lia).
    edestruct Erase_shifts as [y Hy]; last first.
    { eexists _, _. split; [done|]. split; [exact Hy|].
      cbn [this items_ size_]. split; [lia|].
      replace (N.to_nat (size + 1 - 1)) with (N.to_nat size) by lia.
      replace (N.to_nat (size + 1)) with (S (N.to_nat size)) by lia.
      rewrite <- Hall. by apply erase_inserted. }
    all: unfold size_t_modulus; try lia.
    rewrite !length_app. cbn [length].
    rewrite !length_app, !length_take, !length_drop, length_replicate.
    rewrite Hw. lia.
Qed.

(** Calls of [PushBack] on a block of capacity [k], or of at least twice
    that, as long as the size stays within [2 * k]. *)
Lemma PushBack_calls_bounded (k : N) (args : list (argument T)) : forall s,
  valid (this s) -> 2 * k < size_t_modulus ->
  capacity_ (this s) = k \/ 2 * k <= capacity_ (this s) ->
  size_ (this s) + N.of_nat (length args) <= 2 * k ->
  exists s2,
    PushBack_calls args s = Returns () s2 /\
    k <= capacity_ (this s2) /\
    (size_ (this s) + N.of_nat (length args) <= capacity_ (this s) ->
     allocations s2 = allocations s).
Proof.
  induction args as [|a args IH]; intros s Hvalid Hk Hcap Hlen.
  { exists s. split; [done|]. split; [|done]. lia. }
  destruct s as [[items size capacity] allocs].
  unfold valid, lockstep in *. cbn [this items_ size_ capacity_ length] in *.
  destruct Hvalid as [Hsize Hlock].
  pose proof (wrap_small (2 * k) Hk) as Hw.
  unfold size_t_modulus in Hk.
  cbn [PushBack_calls]. unfold mbind at 1. unfold M_bind.
  destruct (decide (size < capacity)) as [Hroom|Hfull].
  - rewrite PushBack_in_place by lia.
    rewrite wrap_small by (unfold size_t_modulus; lia).
    edestruct IH as (s2 & Hrun & Hge & Hquiet); last first.
    { exists s2. split; [exact Hrun|]. split; [exact Hge|].
      intros Hfits. cbn [allocations this size_ capacity_] in Hquiet.
      apply Hquiet. lia. }
    all: cbn [this items_ size_ capacity_]; rewrite ?length_insert;
      unfold size_t_modulus; lia.
  - assert (capacity = k) as -> by lia.
    assert (size = k) as -> by lia.
    rewrite PushBack_grows by (rewrite ?Hw; lia).
    rewrite Hw. rewrite wrap_small by (unfold size_t_modulus; lia).
    edestruct IH as (s2 & Hrun & Hge & Hquiet); last first.
    { exists s2. split; [exact Hrun|]. split; [exact Hge|]. lia. }
    all: cbn [this items_ size_ capacity_]; unfold size_t_modulus; try lia.
    split; [lia|].
    rewrite length_app. cbn [length].
    rewrite length_take, length_replicate. lia.
Qed.

(** C6, amended: on a valid vector of size [n], for [k] at least the
    capacity, [Reserve(k)] followed by up to [k] calls of [PushBack]
    keeps the capacity at least [k] throughout, and the first [k - n]
    of the calls allocate no block; with an empty vector these are all
    [k] calls.  [2 * k] does not wrap around. *)
Theorem Reserve_then_PushBack s (k : N) (args : list (argument T)) :
  valid (this s) -> capacity_ (this s) <= k -> 2 * k < size_t_modulus ->
  N.of_nat (length args) <= k ->
  reserve_then_push s k args (N.to_nat (k - size_ (this s))).
Proof.
  intros Hvalid Hcap Hk Hlen. unfold reserve_then_push.
  assert (exists s1, Reserve k s = Returns () s1 /\ valid (this s1) /\
                     capacity_ (this s1) = k /\
                     size_ (this s1) = size_ (this s)) as (s1 & Hres & Hv1 & Hc1 & Hs1).
  { destruct (decide (k <= capacity_ (this s))) as [Hle|Hgt].
    - exists s. split; [by apply Reserve_enough|]. split; [done|]. split; [lia|done].
    - destruct s as [[items size capacity] allocs].
      unfold valid, lockstep in *. cbn [this items_ size_ capacity_] in *.
      destruct Hvalid as [Hsize Hlock].
      rewrite Reserve_grows by lia. eexists. split; [done|].
      cbn [this items_ size_ capacity_]. split; [|done]. split; [lia|].
      rewrite length_app, length_take, length_replicate. lia. }
  exists s1. split; [exact Hres|]. intros j.
  assert (length (take j args) <= length args)%nat as Htake
    by (rewrite length_take; lia).
  destruct Hv1 as [Hsize1 Hlock1].
  destruct (PushBack_calls_bounded k (take j args) s1) as (s2 & Hrun & Hge & Hquiet);
    try done; try lia.
  exists s2. split; [exact Hrun|]. split; [exact Hge|].
  intros Hj. apply Hquiet. rewrite length_take. lia.
Qed.
End Properties.

(** ** Instances at [int] *)

(** The states [three] and [one] are what the constructor from an
    initializer list builds. *)
Example three_constructed :
  ctor_init_list [1; 2; 3]%Z fresh = Returns () three.
Proof. reflexivity. Qed.

Example one_constructed : ctor_init_list [1%Z] fresh = Returns () one.
Proof. reflexivity. Qed.

(** [{1, 2, 3}], then [PushBack(4)], [Erase] of the 2 and
    [Insert(begin(), 0)]: size 4, capacity 6, elements 0 1 3 4; [At(10)]
    then throws. *)
Example scenario :
  (PushBack 4%Z;; Erase 1;; Insert 0 0%Z;;
   v ← get; mret (size_ v, capacity_ v, elements v)) three
  = Returns (4, 6, [Holds 0; Holds 1; Holds 3; Holds 4]%Z)
      {| this := {| items_ := [Holds 0; Holds 1; Holds 3; Holds 4;
                               Unspecified; Unspecified]%Z;
                    size_ := 4; capacity_ := 6 |};
         allocations := 2 |}
  /\ (PushBack 4%Z;; Erase 1;; Insert 0 0%Z;; At 10) three
     = Throws out_of_range
         {| this := {| items_ := [Holds 0; Holds 1; Holds 3; Holds 4;
                                  Unspecified; Unspecified]%Z;
                       size_ := 4; capacity_ := 6 |};
            allocations := 2 |}.
Proof. split; reflexivity. Qed.

(** C8 at [{1, 2, 3}], index 1. *)
Lemma At_checked_witness :
  within_block (this three) /\
  ((1 < size_ (this three) ->
      exists c, elements (this three) !! N.to_nat 1 = Some c /\
                At 1 three = Returns c three) /\
   (size_ (this three) <= 1 -> At 1 three = Throws out_of_range three) /\
   (forall e s', At 1 three = Throws e s' -> size_ (this three) <= 1)).
Proof.
  assert (within_block (this three)) as Hin by (vm_compute; lia).
  split; [exact Hin|]. exact (At_checked three 1 Hin).
Defined.

(** C4 at [{1, 2, 3}.PushBack(4)] and at [Resize(5)] of an empty
    vector. *)
Lemma growth_rule_witness :
  (exists s',
     run_call (Call_PushBack (Lvalue 4%Z)) three = Returns () s' /\
     capacity_ (this s') = N.max 4 6 /\
     (capacity_ (this three) = 0 -> capacity_ (this s') = N.max 1 4)) /\
  (exists s',
     run_call (Call_Resize 5) fresh = Returns () s' /\
     capacity_ (this s') = N.max 5 0 /\
     (capacity_ (this fresh) = 0 -> capacity_ (this s') = N.max 1 5)).
Proof.
  split.
  - apply (growth_rule (Call_PushBack (Lvalue 4%Z)) three).
    + vm_compute. discriminate.
    + vm_compute. lia.
    + reflexivity.
    + exact I.
    + reflexivity.
  - apply (growth_rule (Call_Resize 5) fresh).
    + vm_compute. discriminate.
    + vm_compute. lia.
    + reflexivity.
    + exact I.
    + reflexivity.
Defined.

(** C7 at [{1, 2, 3}], position 1. *)
Lemma Insert_Erase_round_trip_witness :
  exists s1 s2,
    Insert_call 1 (Rvalue 9%Z) three = Returns 1 s1 /\
    Erase 1 s1 = Returns 1 s2 /\
    size_ (this s2) = 3 /\
    elements (this s2) = [Holds 1; Holds 2; Holds 3]%Z.
Proof.
  apply (Insert_Erase_round_trip three 1 (Rvalue 9%Z)).
  - split; [vm_compute; discriminate | reflexivity].
  - reflexivity.
  - vm_compute. discriminate.
Defined.

(** C6, amended, at [{1}], [k = 3]: two quiet calls. *)
Lemma Reserve_then_PushBack_witness :
  reserve_then_push one 3 [Lvalue 7; Rvalue 8; Lvalue 9]%Z 2.
Proof.
  apply (Reserve_then_PushBack one 3 [Lvalue 7; Rvalue 8; Lvalue 9]%Z).
  - split; [vm_compute; discriminate | reflexivity].
  - vm_compute. discriminate.
  - reflexivity.
  - vm_compute. discriminate.
Defined.

(** C6 as stated fails: [{1}] has capacity 1, and after [Reserve(1)]
    the first call of [PushBack] allocates a block. *)
Lemma Reserve_then_PushBack_reallocates :
  ctor_init_list [1%Z] fresh = Returns () one /\
  valid (this one) /\ capacity_ (this one) <= 1 /\
  length [Lvalue 5%Z] = 1%nat /\
  ~ reserve_then_push one 1 [Lvalue 5%Z] 1.
Proof.
  split; [reflexivity|].
  split; [split; [vm_compute; discriminate | reflexivity]|].
  split; [vm_compute; discriminate|].
  split; [reflexivity|].
  intros (s1 & Hres & Hcalls).
  destruct (Hcalls 1%nat) as (s2 & Hrun & _ & Hquiet).
  vm_compute in Hres. injection Hres as <-.
  vm_compute in Hrun. injection Hrun as <-.
  specialize (Hquiet (le_n 1)). vm_compute in Hquiet. discriminate.
Qed.

(** C1: the copy of a vector of size 1 and capacity 2 owns a block of
    exactly 1 slot holding the source's element, but records the
    capacity 2 of the source instead of the size 1. *)
Lemma copy_keeps_source_capacity :
  (ctor_init_list [7; 8]%Z;; PopBack;; v ← get; construct (ctor_copy v)) fresh
  = Returns {| items_ := [Holds 7%Z]; size_ := 1; capacity_ := 2 |}
      {| this := {| items_ := [Holds 7; Holds 8]%Z; size_ := 1;
                    capacity_ := 2 |};
         allocations := 2 |}.
Proof. reflexivity. Qed.

(** C2: the copy constructor leaves the recorded capacity (4) apart
    from the allocated size of the block (1); the next [PushBack] on the
    copy writes outside the block. *)
Lemma copy_breaks_lockstep :
  let copy := {| items_ := [Holds 1%Z]; size_ := 1; capacity_ := 4 |} in
  (ctor_default;; Reserve 4;; PushBack 1%Z;; v ← get; construct (ctor_copy v))
    fresh
  = Returns copy
      {| this := {| items_ := [Holds 1%Z; Unspecified; Unspecified; Unspecified];
                    size_ := 1; capacity_ := 4 |};
         allocations := 2 |} /\
  ~ lockstep copy /\
  PushBack 2%Z {| this := copy; allocations := 2 |} = Undefined.
Proof.
  split; [reflexivity|]. split; [|reflexivity].
  unfold lockstep. vm_compute. discriminate.
Qed.

(** C5: after [{1, 2, 3}.Clear()], [Resize(2)] stays within the
    capacity and exposes the old elements 1 and 2, not two
    default-constructed values. *)
Lemma Resize_exposes_stale_elements :
  (ctor_init_list [1; 2; 3]%Z;; Clear;; Resize 2;; v ← get; mret (elements v))
    fresh
  = Returns [Holds 1; Holds 2]%Z
      {| this := {| items_ := [Holds 1; Holds 2; Holds 3]%Z; size_ := 2;
                    capacity_ := 3 |};
         allocations := 1 |}.
Proof. reflexivity. Qed.


(** ** What the member functions do to the elements *)

Section Semantics.
Context `{Element T}.
Implicit Types (v : t T) (s : State T) (items : list (cell T)).
Implicit Types (size capacity allocs pos : N) (a : argument T).

Lemma take_succ_insert items (n : nat) (c : cell T) :
  (n < length items)%nat -> take (S n) (<[n:=c]> items) = take n items ++ [c].
Proof.
  intros Hn. rewrite (take_S_r _ n c) by (by apply list_lookup_insert_eq).
  by rewrite take_insert_ge.
Qed.

Lemma take_succ_prefix items (rest : list (cell T)) (n : nat) (c : cell T) :
  (n <= length items)%nat ->
  take (S n) (take n items ++ c :: rest) = take n items ++ [c].
Proof.
  intros Hn. rewrite snoc_assoc. apply take_app_length'.
  rewrite length_snoc, length_take. lia.
Qed.

Lemma PushBack_call_appends a s :
  valid (this s) -> 2 * (size_ (this s) + 1) < size_t_modulus ->
  exists s',
    PushBack_call a s = Returns () s' /\ valid (this s') /\
    size_ (this s') = size_ (this s) + 1 /\
    elements (this s') = elements (this s) ++ [Holds (value_of a)] /\
    capacity_ (this s) <= capacity_ (this s') /\
    (size_ (this s) < capacity_ (this s) ->
     capacity_ (this s') = capacity_ (this s) /\
     allocations s' = allocations s).
Proof.
  destruct s as [[items size capacity] allocs].
  unfold valid, lockstep, elements. cbn [this items_ size_ capacity_].
  intros [Hsize Hlock] Hfit. unfold size_t_modulus in Hfit.
  destruct (decide (size < capacity)) as [Hroom|Hfull].
  - rewrite PushBack_in_place by lia. eexists. split; [done|].
    cbn [this items_ size_ capacity_ allocations].
    rewrite wrap_small by (unfold size_t_modulus; lia).
    rewrite length_insert.
    replace (N.to_nat (size + 1)) with (S (N.to_nat size)) by lia.
    rewrite take_succ_insert by lia. repeat split; try done; lia.
  - assert (size = capacity) as -> by lia.
    assert (wrap (2 * capacity) = 2 * capacity) as Hw
      by (apply wrap_small; unfold size_t_modulus; lia).
    rewrite PushBack_grows by (rewrite ?Hw; lia). eexists. split; [done|].
    cbn [this items_ size_ capacity_ allocations].
    rewrite Hw, wrap_small by (unfold size_t_modulus; lia).
    replace (N.to_nat (capacity + 1)) with (S (N.to_nat capacity)) by lia.
    rewrite take_succ_prefix by lia.
    rewrite length_app. cbn [length]. rewrite length_take, length_replicate.
    repeat split; try done; lia.
Qed.

Lemma PushBack_calls_run (args : list (argument T)) : forall s,
  valid (this s) ->
  2 * (size_ (this s) + N.of_nat (length args)) < size_t_modulus ->
  exists s',
    PushBack_calls args s = Returns () s' /\ valid (this s') /\
    size_ (this s') = size_ (this s) + N.of_nat (length args) /\
    elements (this s')
    = elements (this s) ++ ((fun a => Holds (value_of a)) <$> args) /\
    capacity_ (this s) <= capacity_ (this s') /\
    (size_ (this s) + N.of_nat (length args) <= capacity_ (this s) ->
     capacity_ (this s') = capacity_ (this s) /\
     allocations s' = allocations s).
Proof.
  induction args as [|a args IH]; intros s Hvalid Hfit.
  { exists s. cbn [length fmap list_fmap]. rewrite app_nil_r.
    repeat split; try done; try apply Hvalid; lia. }
  cbn [length] in Hfit.
  destruct (PushBack_call_appends a s Hvalid) as
    (s1 & Hpush & Hvalid1 & Hsize1 & Helem1 & Hcap1 & Hquiet1); [lia|].
  destruct (IH s1 Hvalid1) as (s2 & Hrest & Hvalid2 & Hsize2 & Helem2 & Hcap2 & Hquiet2);
    [lia|].
  exists s2. cbn [PushBack_calls]. unfold mbind at 1. unfold M_bind.
  rewrite Hpush. split; [exact Hrest|]. split; [exact Hvalid2|].
  cbn [length]. split; [lia|]. split.
  { rewrite Helem2, Helem1, <- app_assoc. done. }
  split; [lia|]. intros Hle.
  destruct Hquiet1 as [Hc1 Ha1]; [lia|].
  destruct Hquiet2 as [Hc2 Ha2]; [lia|]. split; congruence.
Qed.

(** X7: [Clear] keeps the block: on a valid vector, pushing again up to
    the old capacity returns with exactly the pushed values as
    elements, the same capacity, and no allocation. *)
Theorem Clear_then_refill s (args : list (argument T)) :
  valid (this s) -> doubling_fits (this s) ->
  N.of_nat (length args) <= capacity_ (this s) ->
  exists s',
    (Clear;; PushBack_calls args) s = Returns () s' /\
    elements (this s') = (fun a => Holds (value_of a)) <$> args /\
    capacity_ (this s') = capacity_ (this s) /\
    allocations s' = allocations s.
Proof.
  destruct s as [[items size capacity] allocs].
  unfold valid, lockstep, doubling_fits. cbn [this items_ size_ capacity_ allocations].
  intros [Hsize Hlock] Hfit Hlen. unfold size_t_modulus in Hfit.
  destruct (PushBack_calls_run args
              {| this := {| items_ := items; size_ := 0; capacity_ := capacity |};
                 allocations := allocs |})
    as (s' & Hrun & _ & _ & Helem & _ & Hquiet).
  { split; [cbn; lia|done]. }
  { cbn [this size_]. unfold size_t_modulus. lia. }
  exists s'. split.
  { unfold mbind at 1. unfold M_bind, Clear. mstep. exact Hrun. }
  cbn [this items_ size_ capacity_ allocations] in *.
  destruct Hquiet as [Hc Ha]; [lia|].
  split; [|done]. rewrite Helem. unfold elements. cbn [size_ items_].
  change (N.to_nat 0) with 0%nat. by rewrite take_0.
Qed.

Lemma elements_split items (p n : nat) :
  (p <= n)%nat ->
  take p (take n items) = take p items /\
  drop p (take n items) = take (n - p) (drop p items).
Proof.
  intros Hp. split.
  - rewrite take_take. f_equal. lia.
  - rewrite take_drop_commute. do 2 f_equal. lia.
Qed.


(** X11: [Insert] at [end()] leaves the vector in exactly the state
    [PushBack] of the same value leaves it in. *)
Theorem Insert_at_end_is_PushBack a s :
  valid (this s) -> doubling_fits (this s) ->
  exists s',
    Insert_call (size_ (this s)) a s = Returns (size_ (this s)) s' /\
    PushBack_call a s = Returns () s'.
Proof.
  destruct s as [[items size capacity] allocs].
  unfold valid, lockstep, doubling_fits.
  cbn [this items_ size_ capacity_].
  intros [Hsize Hlock] Hfit.
  pose proof (wrap_small (2 * capacity) Hfit) as Hw.
  unfold size_t_modulus in Hfit.
  destruct (decide (size < capacity)) as [Hroom|Hfull].
  - rewrite Insert_in_place, PushBack_in_place
      by (unfold size_t_modulus; lia).
    eexists. split; [done|].
    rewrite (wrap_small (size + 1)) by (unfold size_t_modulus; lia).
    rewrite Nat.sub_diag, take_0. cbn [app].
    by rewrite <- insert_take_drop by lia.
  - rewrite Insert_grows, PushBack_grows
      by (rewrite ?Hw; unfold size_t_modulus; lia).
    eexists. split; [done|].
    rewrite (wrap_small (size + 1)) by (unfold size_t_modulus; lia).
    by rewrite Nat.sub_diag, take_0.
Qed.

(** [Erase] removes the element at [pos] and keeps the block. *)
Lemma Erase_run pos s :
  within_block (this s) -> size_ (this s) < size_t_modulus ->
  pos < size_ (this s) ->
  exists s',
    Erase pos s = Returns pos s' /\
    size_ (this s') = size_ (this s) - 1 /\
    elements (this s')
    = take (N.to_nat pos) (elements (this s))
      ++ drop (S (N.to_nat pos)) (elements (this s)) /\
    capacity_ (this s') = capacity_ (this s) /\
    length (items_ (this s')) = length (items_ (this s)) /\
    allocations s' = allocations s.
Proof.
  destruct s as [[items size capacity] allocs].
  unfold within_block, elements. cbn [this items_ size_ capacity_ allocations].
  intros Hin Hw Hpos.
  destruct (Erase_shifts pos items size capacity allocs Hpos Hin Hw) as [y Hy].
  eexists. split; [exact Hy|]. cbn [this items_ size_ capacity_ allocations].
  split; [done|].
  destruct (elements_split items (N.to_nat pos) (N.to_nat size)) as [-> _];
    [lia|].
  destruct (elements_split items (S (N.to_nat pos)) (N.to_nat size)) as [_ ->];
    [lia|].
  split; [|split; [done|split; [|done]]].
  - rewrite app_assoc. apply take_app_length'.
    rewrite length_app, !length_take, length_drop. lia.
  - rewrite !length_app. cbn [length].
    rewrite !length_take, !length_drop. lia.
Qed.

(** [PopBack] drops the last element; on an empty vector its assertion
    fails. *)
Lemma PopBack_run s :
  within_block (this s) -> size_ (this s) < size_t_modulus ->
  (size_ (this s) = 0 -> PopBack s = Undefined) /\
  (size_ (this s) <> 0 ->
   exists s',
     PopBack s = Returns () s' /\
     size_ (this s') = size_ (this s) - 1 /\
     elements (this s')
     = take (N.to_nat (size_ (this s)) - 1) (elements (this s)) /\
     capacity_ (this s') = capacity_ (this s) /\
     length (items_ (this s')) = length (items_ (this s)) /\
     allocations s' = allocations s).
Proof.
  intros Hin Hw. split.
  - intros Hempty. destruct s as [[items size capacity] allocs].
    cbn [this size_] in Hempty. subst size. done.
  - intros Hne.
    destruct (Erase_run (size_ (this s) - 1) s Hin Hw) as
      (s' & Hrun & Hsize & Helem & Hcap & Hlen & Hall); [lia|].
    exists s'. split.
    { destruct s as [[items size capacity] allocs].
      cbn [this size_] in *. unfold PopBack. mstep.
      rewrite bool_decide_false by done. rewrite decide_True by done.
      rewrite wrap_pred by lia. by rewrite Hrun. }
    split; [done|]. split; [|done].
    rewrite Helem.
    replace (S (N.to_nat (size_ (this s) - 1))) with (N.to_nat (size_ (this s)))
      by lia.
    unfold within_block, elements in *.
    rewrite (drop_ge (take _ _)) by (rewrite length_take; lia).
    rewrite app_nil_r. f_equal. lia.
Qed.

(** X9: [PushBack] followed by [PopBack] gives back the size and the
    elements. *)
Theorem PushBack_PopBack a s :
  valid (this s) -> 2 * (size_ (this s) + 1) < size_t_modulus ->
  exists s1 s2,
    PushBack_call a s = Returns () s1 /\ PopBack s1 = Returns () s2 /\
    size_ (this s2) = size_ (this s) /\
    elements (this s2) = elements (this s).
Proof.
  intros Hvalid Hfit.
  destruct (PushBack_call_appends a s Hvalid Hfit) as
    (s1 & Hpush & [Hsize1 Hlock1] & Hsz & Helem & _).
  assert (within_block (this s1)) as Hin1.
  { unfold within_block, lockstep in *. lia. }
  destruct (PopBack_run s1 Hin1) as [_ Hpop].
  { rewrite Hsz. unfold size_t_modulus in *. lia. }
  destruct Hpop as (s2 & Hrun & Hsz2 & Helem2 & _); [lia|].
  exists s1, s2. split; [done|]. split; [done|]. split; [lia|].
  rewrite Helem2, Helem, Hsz.
  apply take_app_length'.
  destruct Hvalid as [Hsize Hlock]. unfold elements, lockstep in *.
  rewrite length_take. lia.
Qed.

(** [Reserve] keeps size and elements and never lowers the capacity. *)
Lemma Reserve_run (new_capacity : N) s :
  valid (this s) ->
  exists s',
    Reserve new_capacity s = Returns () s' /\ valid (this s') /\
    size_ (this s') = size_ (this s) /\
    elements (this s') = elements (this s) /\
    capacity_ (this s') = N.max (capacity_ (this s)) new_capacity /\
    allocations s'
    = if decide (new_capacity <= capacity_ (this s)) then allocations s
      else allocations s + 1.
Proof.
  intros Hvalid.
  destruct (decide (new_capacity <= capacity_ (this s))) as [Hle|Hgt].
  { exists s. rewrite Reserve_enough by done. repeat split; try apply Hvalid. lia. }
  destruct s as [[items size capacity] allocs].
  unfold valid, lockstep, elements in *.
  cbn [this items_ size_ capacity_ allocations] in *.
  destruct Hvalid as [Hsize Hlock].
  rewrite Reserve_grows by lia. eexists. split; [done|].
  cbn [this items_ size_ capacity_ allocations].
  rewrite length_app, length_take, length_replicate.
  rewrite take_app_length' by (rewrite length_take; lia).
  repeat split; try done; lia.
Qed.

(** X16: [Resize] beyond the capacity keeps the elements and appends
    default-constructed values up to the new size, in a new block. *)
Theorem Resize_beyond_capacity (new_size : N) s :
  valid (this s) -> doubling_fits (this s) ->
  capacity_ (this s) < new_size ->
  exists s',
    Resize new_size s = Returns () s' /\ valid (this s') /\
    size_ (this s') = new_size /\
    elements (this s')
    = elements (this s)
      ++ replicate (N.to_nat new_size - N.to_nat (size_ (this s)))
           (Holds Type_default) /\
    allocations s' = allocations s + 1.
Proof.
  destruct s as [[items size capacity] allocs].
  unfold valid, lockstep, doubling_fits, elements.
  cbn [this items_ size_ capacity_ allocations].
  intros [Hsize Hlock] Hfit Hgrow.
  pose proof (wrap_small (2 * capacity) Hfit) as Hw.
  rewrite Resize_grows by lia. eexists. split; [done|].
  cbn [this items_ size_ capacity_ allocations].
  rewrite Hw, !length_app, length_take, !length_replicate.
  split; [lia|]. split; [done|]. split; [|done].
  rewrite app_assoc. apply take_app_length'.
  rewrite length_app, length_take, length_replicate. lia.
Qed.

(** X17: [Resize] to a smaller size cuts the elements and resets the
    cells it gives up, so that a [Resize] back up within the old size
    exposes default-constructed values; neither call allocates. *)
Theorem Resize_shrink_regrow (n m : N) s :
  valid (this s) -> n < m -> m <= size_ (this s) ->
  exists s1 s2,
    Resize n s = Returns () s1 /\
    elements (this s1) = take (N.to_nat n) (elements (this s)) /\
    Resize m s1 = Returns () s2 /\
    elements (this s2)
    = take (N.to_nat n) (elements (this s))
      ++ replicate (N.to_nat m - N.to_nat n) (Holds Type_default) /\
    capacity_ (this s2) = capacity_ (this s) /\
    allocations s2 = allocations s.
Proof.
  destruct s as [[items size capacity] allocs].
  unfold valid, lockstep, elements.
  cbn [this items_ size_ capacity_ allocations].
  intros [Hsize Hlock] Hnm Hm.
  rewrite Resize_shrinks by lia. eexists _, _. split; [done|].
  cbn [this items_ size_ capacity_ allocations].
  rewrite Resize_within_capacity by lia.
  cbn [this items_ size_ capacity_ allocations].
  destruct (elements_split items (N.to_nat n) (N.to_nat size)) as [-> _];
    [lia|].
  assert (length (take (N.to_nat n) items) = N.to_nat n) as Hlen
    by (rewrite length_take; lia).
  split; [by rewrite take_app_length'|]. split; [done|].
  split; [|done].
  cbn [this items_ size_ capacity_ allocations].
  rewrite take_app_ge, Hlen by lia. f_equal.
  rewrite take_app_le by (rewrite length_replicate; lia).
  rewrite take_replicate. f_equal. lia.
Qed.

Lemma fill_fresh (n : N) (c : cell T) :
  std_fill (replicate (N.to_nat n) Unspecified) 0 n c
  = Some (replicate (N.to_nat n) c).
Proof.
  rewrite std_fill_range by (rewrite ?length_replicate; lia).
  change (N.to_nat 0) with 0%nat.
  rewrite take_0, Nat.sub_0_r, drop_replicate, Nat.sub_diag. cbn [app replicate].
  by rewrite app_nil_r.
Qed.

(** X1: the constructors from a count, with a fill value and without,
    build a vector of that size and capacity whose elements all are the
    fill value, or [Type{}]; the object of the caller is not touched. *)
Theorem ctor_size_builds (n : N) (value : T) s :
  (exists v s',
     construct (ctor_size_value n value) s = Returns v s' /\
     this s' = this s /\ valid v /\ size_ v = n /\ capacity_ v = n /\
     elements v = replicate (N.to_nat n) (Holds value)) /\
  (exists v s',
     construct (ctor_size n) s = Returns v s' /\
     this s' = this s /\ valid v /\ size_ v = n /\ capacity_ v = n /\
     elements v = replicate (N.to_nat n) (Holds Type_default)).
Proof.
  split; unfold construct, ctor_size_value, ctor_size; mstep;
    rewrite fill_fresh; mstep; eexists _, _; (split; [done|]);
    unfold valid, lockstep, elements; cbn [this items_ size_ capacity_];
    rewrite length_replicate, take_replicate, Nat.min_id;
    repeat split; try done; lia.
Qed.

(** X2: the constructor from an initializer list builds a vector whose
    size and capacity are the length of the list and whose elements
    are the listed values, in order. *)
Theorem ctor_init_list_builds (init : list T) s :
  exists v s',
    construct (ctor_init_list init) s = Returns v s' /\
    this s' = this s /\ valid v /\
    size_ v = N.of_nat (length init) /\
    capacity_ v = N.of_nat (length init) /\
    elements v = Holds <$> init.
Proof.
  unfold construct, ctor_init_list. mstep.
  rewrite std_copy_prefix
    by (rewrite ?length_replicate, ?length_fmap; lia).
  mstep. eexists _, _. split; [done|].
  unfold valid, lockstep, elements. cbn [this items_ size_ capacity_].
  rewrite Nat2N.id, drop_replicate, Nat.sub_diag. cbn [replicate].
  rewrite app_nil_r.
  rewrite (take_ge (Holds <$> init)) by (rewrite length_fmap; lia).
  rewrite take_ge by (rewrite length_fmap; lia).
  rewrite length_fmap. repeat split; try done; lia.
Qed.

(** X4: copy assignment from another object gives [this] the size and
    the elements of [rhs] in a block of exactly that size, whatever
    [this] held; the recorded capacity is the one of [rhs]. *)
Theorem operator_assign_copies (rhs : t T) s :
  within_block rhs ->
  exists s',
    operator_assign (Other rhs) s = Returns () s' /\
    size_ (this s') = size_ rhs /\
    elements (this s') = elements rhs /\
    length (items_ (this s')) = N.to_nat (size_ rhs) /\
    capacity_ (this s') = capacity_ rhs.
Proof.
  intros Hin. unfold operator_assign.
  unfold mbind at 1. unfold M_bind. rewrite ctor_copy_result by done.
  destruct rhs as [ritems rsize rcapacity].
  unfold swap, within_block, elements in *. mstep.
  eexists. split; [done|]. cbn [this items_ size_ capacity_] in *.
  rewrite take_take, Nat.min_id, length_take. repeat split; try done; lia.
Qed.

(** X5: [swap] exchanges the two objects without allocating, and
    swapping back restores both. *)
Theorem swap_exchanges (other : t T) s :
  swap other s
  = Returns (this s) {| this := other; allocations := allocations s |} /\
  (other' ← swap other; swap other') s = Returns other s.
Proof.
  destruct s as [[items size capacity] allocs], other as [oi os oc].
  split; reflexivity.
Qed.

(** X13: the asserted preconditions: [Insert] at a position past
    [end()], [Erase] at a position from [end()] on, and [PopBack] on an
    empty vector are undefined. *)
Theorem asserted_preconditions pos a s :
  (size_ (this s) < pos -> Insert_call pos a s = Undefined) /\
  (size_ (this s) <= pos -> Erase pos s = Undefined) /\
  (size_ (this s) = 0 -> PopBack s = Undefined).
Proof.
  destruct s as [[items size capacity] allocs]. cbn [this size_].
  split; [|split].
  - intros Hpos. destruct a; unfold Insert_call, Insert, Insert_move; mstep;
      by rewrite decide_False by lia.
  - intros Hpos. unfold Erase. mstep. by rewrite decide_False by lia.
  - intros ->. reflexivity.
Qed.

(** X14: [operator[]] and [At] return the same cell for an index below
    the size; from the size on [At] throws [out_of_range], leaving the
    vector as it was, and [operator[]] is undefined. *)
Theorem unchecked_access (index : N) s :
  (index < size_ (this s) -> operator_index index s = At index s) /\
  (size_ (this s) <= index ->
   operator_index index s = Undefined /\
   At index s = Throws out_of_range s).
Proof.
  destruct s as [[items size capacity] allocs]. cbn [this size_].
  unfold operator_index, At. mstep. split.
  - intros Hlt. rewrite decide_True by done. by rewrite decide_False by lia.
  - intros Hge. rewrite decide_False by lia. by rewrite decide_True.
Qed.

(** X18: on a valid vector whose doubled capacity does not wrap
    around, every modifier returns and leaves a valid vector. *)
Theorem modifiers_keep_valid s :
  valid (this s) -> doubling_fits (this s) ->
  (forall a, exists s', PushBack_call a s = Returns () s' /\ valid (this s')) /\
  (forall pos a, pos <= size_ (this s) ->
     exists s', Insert_call pos a s = Returns pos s' /\ valid (this s')) /\
  (forall pos, pos < size_ (this s) ->
     exists s', Erase pos s = Returns pos s' /\ valid (this s')) /\
  (size_ (this s) <> 0 ->
     exists s', PopBack s = Returns () s' /\ valid (this s')) /\
  (forall n, exists s', Reserve n s = Returns () s' /\ valid (this s')) /\
  (forall n, exists s', Resize n s = Returns () s' /\ valid (this s')) /\
  (exists s', Clear s = Returns () s' /\ valid (this s')).
Proof.
  intros Hvalid Hfit.
  split; [intros a; by apply PushBack_call_valid|].
  split; [intros pos a Hpos; by apply Insert_call_valid|].
  split; [intros pos Hpos; by apply Erase_valid|].
  split.
  { intros Hne.
    destruct (PopBack_run s) as [_ Hpop].
    - unfold valid, lockstep, within_block in *. lia.
    - unfold valid, lockstep, doubling_fits in *. lia.
    - destruct (Hpop Hne) as (s' & Hrun & Hsz & _ & Hcap & Hlen & _).
      exists s'. split; [done|]. unfold valid, lockstep in *. lia. }
  split; [intros n; by apply Reserve_valid|].
  split; [intros n; by apply Resize_valid|].
  destruct s as [[items size capacity] allocs].
  eexists. split; [reflexivity|].
  unfold valid, lockstep in *. cbn [this items_ size_ capacity_] in *. lia.
Qed.
(** X6: calls of [PushBack] on a valid vector append the pushed values
    in order: the size grows by their number, the vector stays valid,
    the capacity never drops, and as long as the values fit the
    capacity nothing is allocated. *)
Theorem PushBack_calls_append s (args : list (argument T)) :
  valid (this s) ->
  2 * (size_ (this s) + N.of_nat (length args)) < size_t_modulus ->
  exists s',
    PushBack_calls args s = Returns () s' /\ valid (this s') /\
    size_ (this s') = size_ (this s) + N.of_nat (length args) /\
    elements (this s')
    = elements (this s) ++ ((fun a => Holds (value_of a)) <$> args) /\
    capacity_ (this s) <= capacity_ (this s') /\
    (size_ (this s) + N.of_nat (length args) <= capacity_ (this s) ->
     capacity_ (this s') = capacity_ (this s) /\
     allocations s' = allocations s).
Proof. apply PushBack_calls_run. Qed.

(** X12: [Erase] at [pos < size] returns [pos] and removes the element
    at [pos]; the block, the capacity and the allocation count stay. *)
Theorem Erase_erases pos s :
  within_block (this s) -> size_ (this s) < size_t_modulus ->
  pos < size_ (this s) ->
  exists s',
    Erase pos s = Returns pos s' /\
    size_ (this s') = size_ (this s) - 1 /\
    elements (this s')
    = take (N.to_nat pos) (elements (this s))
      ++ drop (S (N.to_nat pos)) (elements (this s)) /\
    capacity_ (this s') = capacity_ (this s) /\
    length (items_ (this s')) = length (items_ (this s)) /\
    allocations s' = allocations s.
Proof. apply Erase_run. Qed.

(** X8: [PopBack] on a non-empty vector drops the last element and
    keeps block, capacity and allocation count; on an empty vector it
    is undefined. *)
Theorem PopBack_removes_last s :
  within_block (this s) -> size_ (this s) < size_t_modulus ->
  (size_ (this s) = 0 -> PopBack s = Undefined) /\
  (size_ (this s) <> 0 ->
   exists s',
     PopBack s = Returns () s' /\
     size_ (this s') = size_ (this s) - 1 /\
     elements (this s')
     = take (N.to_nat (size_ (this s)) - 1) (elements (this s)) /\
     capacity_ (this s') = capacity_ (this s) /\
     length (items_ (this s')) = length (items_ (this s)) /\
     allocations s' = allocations s).
Proof. apply PopBack_run. Qed.

(** X15: [Reserve] on a valid vector keeps the size and the elements,
    sets the capacity to the larger of the old one and the requested
    one, and allocates only when the requested one is larger. *)
Theorem Reserve_preserves (new_capacity : N) s :
  valid (this s) ->
  exists s',
    Reserve new_capacity s = Returns () s' /\ valid (this s') /\
    size_ (this s') = size_ (this s) /\
    elements (this s') = elements (this s) /\
    capacity_ (this s') = N.max (capacity_ (this s)) new_capacity /\
    allocations s'
    = if decide (new_capacity <= capacity_ (this s)) then allocations s
      else allocations s + 1.
Proof. apply Reserve_run. Qed.

(** X3: the copy constructor gives the copy the size and the elements
    of the source in a block of exactly that size; the recorded
    capacity matches the block only when the source is full. *)
Theorem copy_constructor_copies (other : t T) s :
  within_block other ->
  exists copy s',
    construct (ctor_copy other) s = Returns copy s' /\
    size_ copy = size_ other /\
    length (items_ copy) = N.to_nat (size_ other) /\
    elements copy = elements other /\
    (lockstep copy <-> capacity_ other = size_ other).
Proof. apply ctor_copy_lockstep. Qed.
End Semantics.

(** ** The comparison operators *)

Section ComparisonFacts.
Context `{Comparable T}.
Implicit Types (xs ys zs : list T) (lhs rhs : t T).
Implicit Types (pre post : list (cell T)).

Lemma read_middle pre (x : T) post (i : nat) :
  i = length pre -> read (pre ++ Holds x :: post) i = Some x.
Proof. intros ->. unfold read. by rewrite list_lookup_middle. Qed.

Lemma values_snoc pre (x : T) xs post :
  pre ++ (Holds <$> x :: xs) ++ post
  = (pre ++ [Holds x]) ++ (Holds <$> xs) ++ post.
Proof. rewrite fmap_cons. by rewrite <- app_assoc. Qed.

Lemma equal_loop_values xs : forall ys pre1 post1 pre2 post2 (f1 f2 n : nat),
  lawful T -> length ys = length xs -> n = length xs ->
  f1 = length pre1 -> f2 = length pre2 ->
  exists b,
    equal_loop (pre1 ++ (Holds <$> xs) ++ post1) f1 n
      (pre2 ++ (Holds <$> ys) ++ post2) f2 = Some b /\
    (b = true <-> xs = ys).
Proof.
  induction xs as [|x xs IH];
    intros ys pre1 post1 pre2 post2 f1 f2 n Hlaw Hlen -> -> ->.
  { destruct ys; [|discriminate]. by exists true. }
  destruct ys as [|y ys]; [discriminate|]. cbn [length equal_loop].
  rewrite !fmap_cons. cbn [app].
  rewrite !read_middle by done. cbn [mbind option_bind].
  destruct (equal x y) eqn:Heq.
  - apply (equal_eq Hlaw) in Heq as ->.
    rewrite (snoc_assoc pre1), (snoc_assoc pre2).
    rewrite <- (length_snoc pre1 (Holds y)), <- (length_snoc pre2 (Holds y)).
    destruct (IH ys (pre1 ++ [Holds y]) post1 (pre2 ++ [Holds y]) post2
                (length (pre1 ++ [Holds y])) (length (pre2 ++ [Holds y]))
                (length xs)) as (b & -> & Hb); try done.
    { cbn [length] in Hlen. lia. }
    exists b. split; [done|]. rewrite Hb. split; [by intros ->|].
    by intros [= ->].
  - exists false. split; [done|]. split; [done|]. intros [= -> _].
    assert (equal y y = true) by (by apply (equal_eq Hlaw)). congruence.
Qed.

Lemma lexicographical_loop_values xs :
  forall ys pre1 post1 pre2 post2 (f1 f2 n1 n2 : nat),
  n1 = length xs -> n2 = length ys ->
  f1 = length pre1 -> f2 = length pre2 ->
  lexicographical_loop (pre1 ++ (Holds <$> xs) ++ post1) f1 n1
    (pre2 ++ (Holds <$> ys) ++ post2) f2 n2
  = Some (lexicographic xs ys).
Proof.
  induction xs as [|x xs IH];
    intros ys pre1 post1 pre2 post2 f1 f2 n1 n2 -> -> -> ->.
  { by destruct ys. }
  destruct ys as [|y ys]; [done|].
  cbn [length lexicographical_loop lexicographic].
  rewrite !fmap_cons. cbn [app].
  rewrite !read_middle by done. cbn [mbind option_bind].
  destruct (less x y); [done|]. destruct (less y x); [done|].
  rewrite (snoc_assoc pre1), (snoc_assoc pre2).
  rewrite <- (length_snoc pre1 (Holds x)), <- (length_snoc pre2 (Holds y)).
  by apply IH.
Qed.

Lemma holds_values_block (v : t T) xs :
  holds_values v xs ->
  items_ v = [] ++ (Holds <$> xs) ++ drop (N.to_nat (size_ v)) (items_ v).
Proof.
  intros [Hlen Helem]. unfold elements in Helem.
  cbn [app]. rewrite <- Helem. by rewrite take_drop.
Qed.

Lemma less_asymmetric (x y : T) :
  lawful T -> less x y = true -> less y x = false.
Proof.
  intros Hlaw Hxy. destruct (less y x) eqn:Hyx; [|done].
  pose proof (less_transitive Hlaw x y x Hxy Hyx) as Hxx.
  rewrite (less_irreflexive Hlaw) in Hxx. discriminate.
Qed.

Lemma lexicographic_irreflexive xs :
  lawful T -> lexicographic xs xs = false.
Proof.
  intros Hlaw. induction xs as [|x xs IH]; [done|].
  cbn [lexicographic]. by rewrite (less_irreflexive Hlaw).
Qed.

Lemma lexicographic_trichotomy xs : forall ys,
  lawful T ->
  (lexicographic xs ys = true /\ xs <> ys /\ lexicographic ys xs = false) \/
  (lexicographic xs ys = false /\ xs = ys /\ lexicographic ys xs = false) \/
  (lexicographic xs ys = false /\ xs <> ys /\ lexicographic ys xs = true).
Proof.
  induction xs as [|x xs IH]; intros ys Hlaw.
  { destruct ys; [right; left; done | left; done]. }
  destruct ys as [|y ys]; [right; right; done|].
  cbn [lexicographic].
  destruct (less x y) eqn:Hxy.
  { rewrite (less_asymmetric x y Hlaw Hxy). left. split; [done|]. split; [|done].
    intros [= -> _]. rewrite (less_irreflexive Hlaw) in Hxy. discriminate. }
  destruct (less y x) eqn:Hyx.
  { right; right. split; [done|]. split; [|done].
    intros [= -> _]. rewrite (less_irreflexive Hlaw) in Hyx. discriminate. }
  pose proof (less_connected Hlaw x y Hxy Hyx) as ->.
  destruct (IH ys Hlaw) as [(? & ? & ?)|[(? & ? & ?)|(? & ? & ?)]].
  - left. repeat split; try done. congruence.
  - right; left. repeat split; try done. congruence.
  - right; right. repeat split; try done. congruence.
Qed.

Lemma lexicographic_transitive xs : forall ys zs,
  lawful T -> lexicographic xs ys = true -> lexicographic ys zs = true ->
  lexicographic xs zs = true.
Proof.
  induction xs as [|x xs IH]; intros ys zs Hlaw Hxy Hyz.
  { destruct ys; [discriminate|]. by destruct zs. }
  destruct ys as [|y ys]; [discriminate|].
  destruct zs as [|z zs]; [discriminate|].
  cbn [lexicographic] in *.
  destruct (less x y) eqn:Exy.
  - destruct (less y z) eqn:Eyz.
    + by rewrite (less_transitive Hlaw x y z).
    + destruct (less z y) eqn:Ezy; [discriminate|].
      pose proof (less_connected Hlaw y z Eyz Ezy) as ->. by rewrite Exy.
  - destruct (less y x) eqn:Eyx; [discriminate|].
    pose proof (less_connected Hlaw x y Exy Eyx) as ->.
    destruct (less y z); [done|]. destruct (less z y); [discriminate|].
    by apply (IH ys).
Qed.

(** [operator<] is the lexicographic order on the live elements. *)
Lemma operator_lt_run lhs rhs xs ys :
  holds_values lhs xs -> holds_values rhs ys ->
  operator_lt lhs rhs = Some (lexicographic xs ys).
Proof.
  intros Hl Hr. unfold operator_lt, std_lexicographical_compare.
  rewrite !distance_le by lia. cbn [mbind option_bind].
  rewrite (holds_values_block lhs xs Hl), (holds_values_block rhs ys Hr).
  destruct Hl as [Hl _], Hr as [Hr _].
  apply lexicographical_loop_values; try done; lia.
Qed.

(** [operator==] decides whether the live elements are the same
    sequence. *)
Lemma operator_eq_run lhs rhs xs ys :
  lawful T -> holds_values lhs xs -> holds_values rhs ys ->
  exists b, operator_eq lhs rhs = Some b /\ (b = true <-> xs = ys).
Proof.
  intros Hlaw Hl Hr. unfold operator_eq.
  destruct (decide (size_ lhs = size_ rhs)) as [Hsize|Hsize].
  - unfold std_equal. rewrite distance_le by lia. cbn [mbind option_bind].
    rewrite (holds_values_block lhs xs Hl), (holds_values_block rhs ys Hr).
    destruct Hl as [Hl _], Hr as [Hr _].
    apply equal_loop_values; try done; lia.
  - exists false. split; [done|]. split; [done|]. intros ->.
    destruct Hl as [Hl _], Hr as [Hr _]. lia.
Qed.

(** X21: for a lawful element type, of [lhs < rhs], [lhs == rhs] and
    [lhs > rhs] exactly one is true, and [<=], [>=], [!=] return the
    negations of [>], [<], [==]. *)
Theorem comparison_trichotomy lhs rhs xs ys :
  lawful T -> holds_values lhs xs -> holds_values rhs ys ->
  exists lt eq gt : bool,
    operator_lt lhs rhs = Some lt /\ operator_eq lhs rhs = Some eq /\
    operator_gt lhs rhs = Some gt /\
    (lt = true /\ eq = false /\ gt = false \/
     lt = false /\ eq = true /\ gt = false \/
     lt = false /\ eq = false /\ gt = true) /\
    operator_le lhs rhs = Some (negb gt) /\
    operator_ge lhs rhs = Some (negb lt) /\
    operator_ne lhs rhs = Some (negb eq).
Proof.
  intros Hlaw Hl Hr.
  destruct (operator_eq_run lhs rhs xs ys Hlaw Hl Hr) as (eq & Heq & Hiff).
  unfold operator_le, operator_ge, operator_gt, operator_ne.
  rewrite Heq, (operator_lt_run lhs rhs xs ys Hl Hr),
    (operator_lt_run rhs lhs ys xs Hr Hl).
  cbn [mbind option_bind fmap option_fmap option_map].
  exists (lexicographic xs ys), eq, (lexicographic ys xs).
  split; [done|]. split; [done|]. split; [done|].
  destruct (lexicographic_trichotomy xs ys Hlaw)
    as [(-> & Hne & ->)|[(-> & He & ->)|(-> & Hne & ->)]].
  - assert (eq = false) as -> by (destruct eq; [by destruct Hne; apply Hiff|done]).
    split; [by left|done].
  - assert (eq = true) as -> by (by apply Hiff).
    split; [by right; left|done].
  - assert (eq = false) as -> by (destruct eq; [by destruct Hne; apply Hiff|done]).
    split; [by right; right|done].
Qed.

(** X22: for a lawful element type [operator<] is transitive. *)
Theorem operator_lt_transitive (a b c : t T) xs ys zs :
  lawful T -> holds_values a xs -> holds_values b ys -> holds_values c zs ->
  operator_lt a b = Some true -> operator_lt b c = Some true ->
  operator_lt a c = Some true.
Proof.
  intros Hlaw Ha Hb Hc.
  rewrite (operator_lt_run a b xs ys), (operator_lt_run b c ys zs),
    (operator_lt_run a c xs zs) by done.
  intros [= Hab] [= Hbc]. f_equal. by apply (lexicographic_transitive xs ys zs).
Qed.
(** X20: [operator<] returns the lexicographic order of the live
    elements; capacities and the cells past the end play no part. *)
Theorem operator_lt_lexicographic lhs rhs xs ys :
  holds_values lhs xs -> holds_values rhs ys ->
  operator_lt lhs rhs = Some (lexicographic xs ys).
Proof. apply operator_lt_run. Qed.

End ComparisonFacts.

Section EqualityOfCopies.
Context `{Element T} `{Comparable T}.


End EqualityOfCopies.

(** ** Further instances at [int] *)

(** Closes a comparison of numerals, or a conjunction of them. *)
Ltac concrete :=
  first [ reflexivity
        | vm_compute; discriminate
        | vm_compute; lia
        | split; concrete ].

(** [int] is a lawful element type. *)
Lemma int_lawful : lawful Z.
Proof.
  split; cbn [equal less int_Comparable].
  - intros x y. apply Z.eqb_eq.
  - intros x. apply Z.ltb_irrefl.
  - intros x y z. rewrite !Z.ltb_lt. lia.
  - intros x y. rewrite !Z.ltb_ge. lia.
Qed.

Lemma three_values : holds_values (this three) [1; 2; 3]%Z.
Proof. split; reflexivity. Qed.

Lemma one_values : holds_values (this one) [1%Z].
Proof. split; reflexivity. Qed.

Lemma roomy_values : holds_values (this roomy) [1; 2]%Z.
Proof. split; reflexivity. Qed.

(** X3 at the copy of [roomy]. *)
Lemma copy_constructor_copies_witness :
  exists copy s',
    construct (ctor_copy (this roomy)) fresh = Returns copy s' /\
    size_ copy = 2 /\ length (items_ copy) = 2%nat /\
    elements copy = [Holds 1; Holds 2]%Z /\
    (lockstep copy <-> 4 = 2).
Proof.
  exact (copy_constructor_copies (this roomy) fresh
           ltac:(concrete)).
Defined.

(** X4 at [three = roomy]. *)
Lemma operator_assign_copies_witness :
  exists s',
    operator_assign (Other (this roomy)) three = Returns () s' /\
    size_ (this s') = 2 /\
    elements (this s') = [Holds 1; Holds 2]%Z /\
    length (items_ (this s')) = 2%nat /\
    capacity_ (this s') = 4.
Proof.
  exact (operator_assign_copies (this roomy) three
           ltac:(concrete)).
Defined.

(** X6 at four calls on [three]. *)
Lemma PushBack_calls_append_witness :
  exists s',
    PushBack_calls [Lvalue 4; Rvalue 5; Lvalue 6; Rvalue 7]%Z three
    = Returns () s' /\ valid (this s') /\
    size_ (this s') = 7 /\
    elements (this s')
    = [Holds 1; Holds 2; Holds 3; Holds 4; Holds 5; Holds 6; Holds 7]%Z /\
    3 <= capacity_ (this s') /\
    (7 <= 3 -> capacity_ (this s') = 3 /\ allocations s' = 1).
Proof.
  exact (PushBack_calls_append three
           [Lvalue 4; Rvalue 5; Lvalue 6; Rvalue 7]%Z
           ltac:(concrete) ltac:(concrete)).
Defined.

(** X7 at [three], refilled with two values. *)
Lemma Clear_then_refill_witness :
  exists s',
    (Clear;; PushBack_calls [Lvalue 8; Rvalue 9]%Z) three = Returns () s' /\
    elements (this s') = [Holds 8; Holds 9]%Z /\
    capacity_ (this s') = 3 /\ allocations s' = 1.
Proof.
  exact (Clear_then_refill three [Lvalue 8; Rvalue 9]%Z
           ltac:(concrete) ltac:(concrete) ltac:(concrete)).
Defined.

(** X8 at [three]. *)
Lemma PopBack_removes_last_witness :
  (size_ (this three) = 0 -> PopBack three = Undefined) /\
  (size_ (this three) <> 0 ->
   exists s',
     PopBack three = Returns () s' /\
     size_ (this s') = 2 /\
     elements (this s') = [Holds 1; Holds 2]%Z /\
     capacity_ (this s') = 3 /\
     length (items_ (this s')) = 3%nat /\
     allocations s' = 1).
Proof.
  exact (PopBack_removes_last three
           ltac:(concrete) ltac:(concrete)).
Defined.

(** X9 at [three]. *)
Lemma PushBack_PopBack_witness :
  exists s1 s2,
    PushBack_call (Rvalue 4%Z) three = Returns () s1 /\
    PopBack s1 = Returns () s2 /\
    size_ (this s2) = 3 /\
    elements (this s2) = [Holds 1; Holds 2; Holds 3]%Z.
Proof.
  exact (PushBack_PopBack (Rvalue 4%Z) three
           ltac:(concrete) ltac:(concrete)).
Defined.


(** X11 at [three]. *)
Lemma Insert_at_end_is_PushBack_witness :
  exists s',
    Insert_call 3 (Rvalue 4%Z) three = Returns 3 s' /\
    PushBack_call (Rvalue 4%Z) three = Returns () s'.
Proof.
  exact (Insert_at_end_is_PushBack (Rvalue 4%Z) three
           ltac:(concrete) ltac:(concrete)).
Defined.

(** X12 at [three], position 1. *)
Lemma Erase_erases_witness :
  exists s',
    Erase 1 three = Returns 1 s' /\
    size_ (this s') = 2 /\
    elements (this s') = [Holds 1; Holds 3]%Z /\
    capacity_ (this s') = 3 /\
    length (items_ (this s')) = 3%nat /\
    allocations s' = 1.
Proof.
  exact (Erase_erases 1 three
           ltac:(concrete) ltac:(concrete) ltac:(concrete)).
Defined.

(** X15 at [three.Reserve(10)]. *)
Lemma Reserve_preserves_witness :
  exists s',
    Reserve 10 three = Returns () s' /\ valid (this s') /\
    size_ (this s') = 3 /\
    elements (this s') = [Holds 1; Holds 2; Holds 3]%Z /\
    capacity_ (this s') = 10 /\
    allocations s' = 2.
Proof.
  exact (Reserve_preserves 10 three
           ltac:(concrete)).
Defined.

(** X16 at [three.Resize(5)]. *)
Lemma Resize_beyond_capacity_witness :
  exists s',
    Resize 5 three = Returns () s' /\ valid (this s') /\
    size_ (this s') = 5 /\
    elements (this s')
    = [Holds 1; Holds 2; Holds 3; Holds 0; Holds 0]%Z /\
    allocations s' = 2.
Proof.
  exact (Resize_beyond_capacity 5 three
           ltac:(concrete) ltac:(concrete) ltac:(concrete)).
Defined.

(** X17 at [three.Resize(1)], then [Resize(3)]. *)
Lemma Resize_shrink_regrow_witness :
  exists s1 s2,
    Resize 1 three = Returns () s1 /\
    elements (this s1) = [Holds 1%Z] /\
    Resize 3 s1 = Returns () s2 /\
    elements (this s2) = [Holds 1; Holds 0; Holds 0]%Z /\
    capacity_ (this s2) = 3 /\
    allocations s2 = 1.
Proof.
  exact (Resize_shrink_regrow 1 3 three
           ltac:(concrete) ltac:(concrete) ltac:(concrete)).
Defined.

(** X18 at [three]. *)
Lemma modifiers_keep_valid_witness :
  (forall a, exists s', PushBack_call a three = Returns () s' /\ valid (this s')) /\
  (forall pos a, pos <= 3 ->
     exists s', Insert_call pos a three = Returns pos s' /\ valid (this s')) /\
  (forall pos, pos < 3 ->
     exists s', Erase pos three = Returns pos s' /\ valid (this s')) /\
  (3 <> 0 ->
     exists s', PopBack three = Returns () s' /\ valid (this s')) /\
  (forall n, exists s', Reserve n three = Returns () s' /\ valid (this s')) /\
  (forall n, exists s', Resize n three = Returns () s' /\ valid (this s')) /\
  (exists s', Clear three = Returns () s' /\ valid (this s')).
Proof.
  exact (modifiers_keep_valid three
           ltac:(concrete) ltac:(concrete)).
Defined.


(** X20 at [one < three]. *)
Lemma operator_lt_lexicographic_witness :
  operator_lt (this one) (this three) = Some true.
Proof.
  exact (operator_lt_lexicographic (this one) (this three) [1%Z] [1; 2; 3]%Z
           one_values three_values).
Defined.

(** X21 at [roomy] against [three]. *)
Lemma comparison_trichotomy_witness :
  exists lt eq gt : bool,
    operator_lt (this roomy) (this three) = Some lt /\
    operator_eq (this roomy) (this three) = Some eq /\
    operator_gt (this roomy) (this three) = Some gt /\
    (lt = true /\ eq = false /\ gt = false \/
     lt = false /\ eq = true /\ gt = false \/
     lt = false /\ eq = false /\ gt = true) /\
    operator_le (this roomy) (this three) = Some (negb gt) /\
    operator_ge (this roomy) (this three) = Some (negb lt) /\
    operator_ne (this roomy) (this three) = Some (negb eq).
Proof.
  exact (comparison_trichotomy (this roomy) (this three) [1; 2]%Z [1; 2; 3]%Z
           int_lawful roomy_values three_values).
Defined.

(** X22 at [one < roomy < three]. *)
Lemma operator_lt_transitive_witness :
  operator_lt (this one) (this three) = Some true.
Proof.
  apply (operator_lt_transitive (this one) (this roomy) (this three)
           [1%Z] [1; 2]%Z [1; 2; 3]%Z
           int_lawful one_values roomy_values three_values);
    reflexivity.
Defined.



End SimpleVector.

(** C3: constructing from the capacity hint [Reserve(n)] gives an empty
    vector of capacity at least [n]: the call in the constructor body is
    the member function, run on the object under construction, whose
    block then has [n] slots. *)
Theorem ctor_reserve_reserves `{Element T} (n : N) (s : SimpleVector.State T) :
  exists v s',
    SimpleVector.construct (SimpleVector.ctor_reserve (Reserve n)) s
    = SimpleVector.Returns v s' /\
    SimpleVector.size_ v = 0 /\
    n <= SimpleVector.capacity_ v /\
    SimpleVector.capacity_ v = n /\
    length (SimpleVector.items_ v) = N.to_nat n.
Proof.
  unfold SimpleVector.construct, SimpleVector.ctor_reserve, Reserve,
    SimpleVector.Reserve.
  cbn [ReserveCapasity]. SimpleVector.mstep.
  cbv beta iota delta [SimpleVector.blank].
  destruct (decide (n <= 0)) as [Hzero|Hpos].
  - eexists _, _. split; [done|]. cbn. split; [done|].
    assert (n = 0) as -> by lia. done.
  - rewrite SimpleVector.std_copy_prefix by (cbn; lia).
    SimpleVector.mstep. eexists _, _. split; [done|].
    cbn [SimpleVector.size_ SimpleVector.capacity_ SimpleVector.items_].
    split; [done|]. split; [lia|]. split; [done|].
    change (N.to_nat 0) with 0%nat.
    by rewrite take_0, drop_0, length_app, length_replicate.
Qed.
